(** * AFL LLVM-mode instrumentation pass (llvm_mode/afl-llvm-pass.so.cc)

    A shallow embedding of the [AFLCoverage] module pass: the allow-list
    loaded by the constructor, the per-block decisions of [runOnModule]
    (allow-list filter, predecessor/successor test, block address), the
    instruction sequence it injects, and a small byte-addressed machine on
    which that sequence is run.

    Conventions.
    - [unsigned int] is a [Z] in [0, 2^32), [i64] and pointers are [Z] in
      [0, 2^64) (the pass is written for a 64-bit target: the stored
      identity is a pointer and the counter an [i64]); wrap-around is
      written out with [mod].
    - [std::string] is [string], [std::list<std::string>] is [list string].
    - The process environment ([getenv], [isatty], the files that can be
      opened) is a record passed explicitly.
    - Output on the diagnostic stream is a list of messages, oldest first.
    - [FATAL] and [report_fatal_error] end the run: they are the two error
      constructors of [Outcome]. *)

From Stdlib Require Import ZArith List String Ascii Bool Lia.
From Stdlib Require Import Numbers.DecimalString.
From Stdlib Require Import Numbers.DecimalN Numbers.DecimalPos.
Import ListNotations.

Open Scope string_scope.
Open Scope list_scope.
Open Scope Z_scope.

(* ===================================================================== *)
(** * Library functions the pass calls *)
(* ===================================================================== *)

(** ** std::string *)

Definition size (s : string) : nat := String.length s.

(** [char_traits<char>::compare(a, b, n)]: zero when the first [n]
    characters agree, else a number with the sign of the difference of the
    first pair of differing characters, as unsigned bytes.  Only the sign
    of a non-zero result is fixed by the library; the difference itself is
    taken here. *)
Fixpoint traits_compare (a b : string) (n : nat) : Z :=
  match n with
  | O => 0
  | S n' =>
      match a, b with
      | String x a', String y b' =>
          if Ascii.eqb x y then traits_compare a' b' n'
          else Z.of_N (N_of_ascii x) - Z.of_N (N_of_ascii y)
      | _, _ => 0
      end
  end.

(** [s.compare(pos, len, str)]: [None] is the [std::out_of_range] exception
    thrown when [pos > s.size()]. *)
Definition string_compare (s : string) (pos len : nat) (str : string)
  : option Z :=
  if Nat.ltb (size s) pos then None
  else
    let rlen := Nat.min len (size s - pos) in
    let r := traits_compare (substring pos rlen s) str
                            (Nat.min rlen (size str)) in
    Some (if r =? 0 then Z.of_nat rlen - Z.of_nat (size str) else r).

(** ** sscanf(str, "%u", &x)

    White space is skipped, an optional sign is read, then decimal digits.
    The conversion is the one of [strtoul] on an LP64 system: the digits
    saturate at [ULONG_MAX], a leading minus negates modulo [2^64], and the
    result is stored in the [unsigned int] modulo [2^32].  The return value
    is 1 after a conversion, 0 on a matching failure (no digit where one is
    expected) and [EOF] (-1) when the input ends before anything is read. *)

Definition isspace (c : ascii) : bool :=
  let n := N_of_ascii c in
  (N.eqb n 32 || (N.leb 9 n && N.leb n 13))%bool.

Definition digit_of (c : ascii) : option Z :=
  let n := Z.of_N (N_of_ascii c) in
  if ((48 <=? n) && (n <=? 57))%bool then Some (n - 48) else None.

Fixpoint skip_spaces (s : string) : string :=
  match s with
  | String c s' => if isspace c then skip_spaces s' else s
  | EmptyString => s
  end.

(** Digits read so far are accumulated in [acc]; [None] when the string
    does not start with a digit. *)
Fixpoint scan_digits (s : string) (acc : option Z) : option Z :=
  match s with
  | String c s' =>
      match digit_of c with
      | Some d =>
          scan_digits s' (Some (10 * match acc with Some a => a | None => 0 end + d))
      | None => acc
      end
  | EmptyString => acc
  end.

Definition ULONG_MAX : Z := 2 ^ 64 - 1.
Definition UINT_MODULUS : Z := 2 ^ 32.
Definition EOF : Z := -1.

Definition strtoul_value (negative : bool) (digits : Z) : Z :=
  if digits >? ULONG_MAX then ULONG_MAX
  else if negative then (- digits) mod 2 ^ 64 else digits.

(** Returns the return value of [sscanf] and the content of the variable
    afterwards ([x] itself when nothing was stored). *)
Definition sscanf_u (str : string) (x : Z) : Z * Z :=
  match skip_spaces str with
  | EmptyString => (EOF, x)
  | String c rest =>
      let negative := Ascii.eqb c "-"%char in
      let signed := (negative || Ascii.eqb c "+"%char)%bool in
      let body := if signed then rest else String c rest in
      match scan_digits body None with
      | Some d => (1, strtoul_value negative d mod UINT_MODULUS)
      | None => (0, x)
      end
  end.

(** ** std::ifstream and std::getline *)

Record ifstream := mk_ifstream
  { is_buf : string;        (* characters not read yet *)
    is_eofbit : bool;
    is_failbit : bool }.

(** [!fileStream] *)
Definition stream_fails (f : ifstream) : bool := is_failbit f.

(** Characters up to the first newline; the rest after the newline, or
    [None] when the input ends first. *)
Fixpoint take_line (s : string) : string * option string :=
  match s with
  | EmptyString => (EmptyString, None)
  | String c s' =>
      if Ascii.eqb c "010"%char then (EmptyString, Some s')
      else let '(l, r) := take_line s' in (String c l, r)
  end.

(** [getline(f, line)]: a stream that is not good sets [failbit] and leaves
    [line] alone; otherwise the line is replaced by the characters up to
    the next newline, which is discarded.  Reaching the end of input sets
    [eofbit], and also [failbit] when no character was extracted. *)
Definition getline (f : ifstream) (line : string) : ifstream * string :=
  if (is_eofbit f || is_failbit f)%bool then
    (mk_ifstream (is_buf f) (is_eofbit f) true, line)
  else
    match take_line (is_buf f) with
    | (l, Some rest) => (mk_ifstream rest false false, l)
    | (l, None) =>
        (mk_ifstream EmptyString true
           (match l with EmptyString => true | _ => false end), l)
    end.

(** ** The process environment *)

Record Environment := mk_env
  { getenv : string -> option string;
    isatty : Z -> bool;
    (** [open_file path] is the content of the file when
        [fileStream.open(path)] succeeds. *)
    open_file : string -> option string }.

(** ** printf("%u", n) *)
Definition fmt_u (n : Z) : string :=
  NilZero.string_of_uint (N.to_uint (Z.to_N n)).

(* ===================================================================== *)
(** * The program representation the pass works on *)
(* ===================================================================== *)

(** Debug locations: a line, a file name and an optional inlined-at
    location. *)
#[local] Set Warnings "-register-all".
Inductive DILocation :=
  mkDILocation (line : Z) (filename : string) (inlinedAt : option DILocation).

Definition getLine (l : DILocation) : Z :=
  match l with mkDILocation n _ _ => n end.
Definition getFilename (l : DILocation) : string :=
  match l with mkDILocation _ f _ => f end.
Definition getInlinedAt (l : DILocation) : option DILocation :=
  match l with mkDILocation _ _ o => o end.

(** A [DebugLoc] is a possibly null [DILocation]. *)
Definition DebugLoc := option DILocation.

Inductive Ty := Int8Ty | Int64Ty | Int8PtrTy.

(** Operands.  An instruction is referred to by its number; the numbers of
    the instructions the pass creates are local to the block they are put
    in. *)
Inductive Value :=
| ConstantInt (ty : Ty) (n : Z)
| GlobalRef (name : string)
| BlockAddress (fn : string) (bb : nat)
| InstResult (id : nat).

(** The instructions the pass creates, and three kinds for the
    instructions of the program it is given: phi nodes, exception-handling
    pads (both are skipped by [getFirstInsertionPt]) and any other
    instruction, which the pass never looks into. *)
Inductive Opcode :=
| PHI
| EHPad
| Other (tag : nat)
| Load (ty : Ty) (ptr : Value)
| GetElementPtr (ptr idx : Value)
| Shl (a b : Value)
| Add (a b : Value)
| Store (ty : Ty) (val ptr : Value).

Record Instruction := mk_inst
  { inst_id : nat;
    inst_op : Opcode;
    inst_md : list string;       (* kinds of the attached metadata *)
    inst_dbg : DebugLoc }.

(** A block: the instructions before the terminator, the terminator and
    its successor operands (a null operand is [None]).  The terminator is
    kept apart so that a block always has one; blocks that end in a
    [catchswitch], which have no insertion point, are not represented. *)
Record BasicBlock := mk_bb
  { bb_label : nat;
    bb_body : list Instruction;
    bb_term : Instruction;
    bb_succs : list (option nat);
    (** whether [BlockAddress::get] gives a non-null constant for it *)
    bb_addressable : bool }.

Record Function := mk_fn
  { fn_name : string;
    fn_blocks : list BasicBlock }.

Record GlobalVariable := mk_global
  { gv_name : string;
    gv_type : Ty;
    gv_constant : bool;
    gv_external : bool }.

Record Module := mk_module
  { mod_globals : list GlobalVariable;
    mod_functions : list Function }.

(** ** CFG queries *)

Definition successors (Pred : BasicBlock) : list (option nat) := bb_succs Pred.

Definition option_nat_eqb (a : option nat) (b : nat) : bool :=
  match a with Some x => Nat.eqb x b | None => false end.

(** [predecessors(&BB)] walks the uses of [BB] in terminators: a block
    appears once for each of its successor operands that is [BB]. *)
Definition uses_of (BB Pred : BasicBlock) : list BasicBlock :=
  map (fun _ => Pred)
      (filter (fun s => option_nat_eqb s (bb_label BB)) (successors Pred)).

Definition predecessors (F : Function) (BB : BasicBlock) : list BasicBlock :=
  flat_map (uses_of BB) (fn_blocks F).

(** ** Insertion point *)

Definition is_phi (i : Instruction) : bool :=
  match inst_op i with PHI => true | _ => false end.
Definition isEHPad (i : Instruction) : bool :=
  match inst_op i with EHPad => true | _ => false end.

Fixpoint firstNonPHI (body : list Instruction) : nat :=
  match body with
  | i :: rest => if is_phi i then S (firstNonPHI rest) else O
  | [] => O
  end.

(** Position of the first instruction before which an ordinary instruction
    may be put: after the phi nodes, and after the pad when the first
    other instruction is one.  Position [length (bb_body BB)] is the
    terminator. *)
Definition getFirstInsertionPt (BB : BasicBlock) : nat :=
  let n := firstNonPHI (bb_body BB) in
  match nth_error (bb_body BB) n with
  | Some i => if isEHPad i then S n else n
  | None => n
  end.

Definition inst_at (BB : BasicBlock) (pos : nat) : Instruction :=
  nth pos (bb_body BB) (bb_term BB).

(** Putting instructions before position [pos]. *)
Definition insert_before (BB : BasicBlock) (pos : nat)
           (new : list Instruction) : BasicBlock :=
  mk_bb (bb_label BB)
        (firstn pos (bb_body BB) ++ new ++ skipn pos (bb_body BB))
        (bb_term BB) (bb_succs BB) (bb_addressable BB).

(** [BlockAddress::get(&F, &BB)] *)
Definition BlockAddress_get (F : Function) (BB : BasicBlock) : option Value :=
  if bb_addressable BB then Some (BlockAddress (fn_name F) (bb_label BB))
  else None.

(* ===================================================================== *)
(** * IRBuilder *)
(* ===================================================================== *)

(** The builder puts each new instruction before its insertion point and
    gives it the debug location of that point.  Its state is the list of
    the instructions created so far, in program order; an instruction's
    number is its position in that list. *)
Record IRBuilder := mk_irb
  { irb_dbg : DebugLoc;
    irb_insts : list Instruction }.

Definition Build (A : Type) : Type := IRBuilder -> A * IRBuilder.

Definition ret {A} (a : A) : Build A := fun b => (a, b).
Definition bind {A B} (m : Build A) (k : A -> Build B) : Build B :=
  fun b => let '(a, b') := m b in k a b'.

Notation "x <- m ;; k" := (bind m (fun x => k))
  (at level 61, m at next level, right associativity).
Notation "m ;;; k" := (bind m (fun _ => k))
  (at level 61, right associativity).

Definition Insert (op : Opcode) : Build Value :=
  fun b =>
    let id := List.length (irb_insts b) in
    (InstResult id,
     mk_irb (irb_dbg b) (irb_insts b ++ [mk_inst id op [] (irb_dbg b)])).

(** Result type of an instruction, as far as the pass needs it. *)
Definition type_of_op (type_of : Value -> Ty) (op : Opcode) : Ty :=
  match op with
  | Load ty _ => ty
  | GetElementPtr _ _ => Int8PtrTy
  | Shl a _ => type_of a
  | Add a _ => type_of a
  | _ => Int64Ty
  end.

(** Type of an operand; [fuel] bounds the chain of instruction operands
    that is followed and is the number of instructions created so far. *)
Fixpoint type_of_value (insts : list Instruction) (fuel : nat) (v : Value)
  : Ty :=
  match v with
  | ConstantInt ty _ => ty
  | GlobalRef _ => Int8PtrTy
  | BlockAddress _ _ => Int8PtrTy
  | InstResult id =>
      match fuel, nth_error insts id with
      | S fuel', Some i =>
          type_of_op (type_of_value insts fuel') (inst_op i)
      | _, _ => Int64Ty
      end
  end.

Definition CreateLoad (ty : Ty) (ptr : Value) : Build Value :=
  Insert (Load ty ptr).
Definition CreateGEP (ptr idx : Value) : Build Value :=
  Insert (GetElementPtr ptr idx).
Definition CreateShl (a b : Value) : Build Value := Insert (Shl a b).
Definition CreateAdd (a b : Value) : Build Value := Insert (Add a b).
Definition CreateStore (val ptr : Value) : Build Value :=
  fun b =>
    Insert (Store (type_of_value (irb_insts b) (List.length (irb_insts b)) val)
                  val ptr) b.

Definition add_md (kind : string) (i : Instruction) : Instruction :=
  mk_inst (inst_id i) (inst_op i) (kind :: inst_md i) (inst_dbg i).

Fixpoint update_nth {A} (n : nat) (f : A -> A) (l : list A) : list A :=
  match l, n with
  | [], _ => []
  | x :: r, O => f x :: r
  | x :: r, S n' => x :: update_nth n' f r
  end.

(** [I->setMetadata(M.getMDKindID(kind), MDNode::get(C, None))] *)
Definition setMetadata (v : Value) (kind : string) : Build unit :=
  fun b =>
    match v with
    | InstResult id =>
        (tt, mk_irb (irb_dbg b) (update_nth id (add_md kind) (irb_insts b)))
    | _ => (tt, b)
    end.

(** An [IRBuilder] constructed at the instruction [ip], followed by the
    calls of [body]. *)
Definition build_at (ip : Instruction) (body : Build unit)
  : list Instruction :=
  irb_insts (snd (body (mk_irb (inst_dbg ip) []))).

(* ===================================================================== *)
(** * The pass *)
(* ===================================================================== *)

(** Messages on the diagnostic stream, by the macro that prints them. *)
Inductive Diag :=
| SAYF (text : string)
| WARNF (text : string)
| OKF (text : string).

(** How a call ends: it returns, or the process is ended by LLVM's
    [report_fatal_error] or by the [FATAL] macro. *)
Inductive Outcome (A : Type) :=
| Returned (a : A)
| report_fatal_error (msg : string)
| FATAL (msg : string).
Arguments Returned {A} a.
Arguments report_fatal_error {A} msg.
Arguments FATAL {A} msg.

(** Constants of [config.h] and [debug.h] that appear in the banner. *)
Record Headers := mk_headers
  { VERSION : string;
    cCYA : string;
    cRST : string }.

Record AFLCoverage := mk_pass
  { myWhitelist : list string }.

(** ** AFLCoverage::AFLCoverage *)

(** The loop [while (fileStream) { push_back(line); getline(...); }].
    [fuel] bounds the number of iterations; [whitelist_loop_exits] shows
    that the bound the constructor passes is never reached. *)
Fixpoint whitelist_loop (fuel : nat) (fileStream : ifstream) (line : string)
         (wl : list string) : ifstream * list string :=
  match fuel with
  | O => (fileStream, wl)
  | S fuel' =>
      if stream_fails fileStream then (fileStream, wl)
      else
        let wl' := wl ++ [line] in
        let '(fileStream', line') := getline fileStream line in
        whitelist_loop fuel' fileStream' line' wl'
  end.

Definition AFLCoverage_new (env : Environment) : Outcome AFLCoverage :=
  match getenv env "AFL_LLVM_WHITELIST" with
  | Some instWhiteListFilename =>
      match open_file env instWhiteListFilename with
      | None => report_fatal_error "Unable to open AFL_LLVM_WHITELIST"
      | Some content =>
          let fileStream := mk_ifstream content false false in
          let '(fileStream, line) := getline fileStream EmptyString in
          Returned
            (mk_pass (snd (whitelist_loop (2 + size content)
                                           fileStream line [])))
      end
  | None => Returned (mk_pass [])
  end.

(** ** AFLCoverage::runOnModule, block by block *)

Definition empty (s : string) : bool :=
  match s with EmptyString => true | _ => false end.

(** The file name and line the filter works with: those of the location
    itself, or those of the inlined-at location when the file name is empty
    and there is one. *)
Definition resolve_location (cDILoc : DILocation) : string * Z :=
  let instLine := getLine cDILoc in
  let instFilename := getFilename cDILoc in
  if empty instFilename then
    match getInlinedAt cDILoc with
    | Some oDILoc => (getFilename oDILoc, getLine oDILoc)
    | None => (instFilename, instLine)
    end
  else (instFilename, instLine).

(** The loop over [myWhitelist]: [true] is [instrumentBlock = true; break]. *)
Fixpoint whitelist_scan (instFilename : string) (wl : list string) : bool :=
  match wl with
  | [] => false
  | it :: rest =>
      if Nat.leb (size it) (size instFilename) then
        match string_compare instFilename (size instFilename - size it)
                             (size it) it with
        | Some 0 => true
        | _ => whitelist_scan instFilename rest
        end
      else whitelist_scan instFilename rest
  end.

(** Value of [instrumentBlock] at the test [if (!instrumentBlock) continue]. *)
Definition instrumentBlock (wl : list string) (Loc : DebugLoc) : bool :=
  match Loc with
  | Some cDILoc =>
      let '(instFilename, instLine) := resolve_location cDILoc in
      if negb (empty instFilename) then whitelist_scan instFilename wl
      else false
  | None => false
  end.

(** Number of non-null successors of a block. *)
Definition count_successors (Pred : BasicBlock) : Z :=
  fold_left (fun count Succ =>
               match Succ with Some _ => count + 1 | None => count end)
            (successors Pred) 0.

(** Body of the loop over the predecessors. *)
Definition more_than_one_step (more_than_one : Z) (Pred : BasicBlock) : Z :=
  let count := count_successors Pred in
  let more_than_one := if more_than_one =? -1 then 0 else more_than_one in
  if count >? 1 then 1 else more_than_one.

Definition more_than_one (F : Function) (BB : BasicBlock) : Z :=
  fold_left more_than_one_step (predecessors F BB) (-1).

(** The instructions created for a block whose address constant is
    [addr]. *)
Definition AFLMapPtr : Value := GlobalRef "__afl_area_ptr".

Definition instrumentation (addr : Value) : Build unit :=
  (* idx = map[0] *)
  MapPtr <- CreateLoad Int8PtrTy AFLMapPtr ;;
  setMetadata MapPtr "nosanitize" ;;;
  MapPtrPtr <- CreateGEP MapPtr (ConstantInt Int64Ty 0) ;;
  Counter <- CreateLoad Int64Ty MapPtrPtr ;;
  setMetadata Counter "nosanitize" ;;;
  (* map[idx] = rip *)
  Shifted <- CreateShl Counter (ConstantInt Int8Ty 3) ;;
  MapPtrIdx <- CreateGEP MapPtr Shifted ;;
  st <- CreateStore addr MapPtrIdx ;;
  setMetadata st "nosanitize" ;;;
  (* idx++ *)
  Incr <- CreateAdd Counter (ConstantInt Int64Ty 1) ;;
  (* map[0] = idx *)
  st' <- CreateStore Incr MapPtrPtr ;;
  setMetadata st' "nosanitize".

(** One iteration of the loop over the blocks of [F].  [None] is
    [continue]: the block is left as it is; [Some BB'] is the block with
    the new instructions, and [inst_blocks] is incremented. *)
Definition visit_block (P : AFLCoverage) (F : Function) (BB : BasicBlock)
  : option BasicBlock :=
  let IP := getFirstInsertionPt BB in
  if (negb (Nat.eqb (List.length (myWhitelist P)) 0)
      && negb (instrumentBlock (myWhitelist P) (inst_dbg (inst_at BB IP))))%bool
  then None
  else if negb (more_than_one F BB =? 1) then None
  else
    match BlockAddress_get F BB with
    | None => None
    | Some addr =>
        Some (insert_before BB IP
                (build_at (inst_at BB IP) (instrumentation addr)))
    end.

(** The loop over the blocks of one function.  The function is changed in
    place: when a block is visited, the blocks before it ([done]) already
    have their new instructions. *)
Fixpoint visit_blocks (P : AFLCoverage) (name : string)
         (done todo : list BasicBlock) (inst_blocks : nat)
  : list BasicBlock * nat :=
  match todo with
  | [] => (done, inst_blocks)
  | BB :: rest =>
      let F := mk_fn name (done ++ BB :: rest) in
      match visit_block P F BB with
      | None => visit_blocks P name (done ++ [BB]) rest inst_blocks
      | Some BB' => visit_blocks P name (done ++ [BB']) rest (S inst_blocks)
      end
  end.

(** The loop over the functions of the module. *)
Fixpoint visit_functions (P : AFLCoverage) (fns : list Function)
         (inst_blocks : nat) : list Function * nat :=
  match fns with
  | [] => ([], inst_blocks)
  | F :: rest =>
      let '(blocks, n) :=
        visit_blocks P (fn_name F) [] (fn_blocks F) inst_blocks in
      let '(rest', n') := visit_functions P rest n in
      (mk_fn (fn_name F) blocks :: rest', n')
  end.

(** ** AFLCoverage::runOnModule *)

Definition is_set (env : Environment) (name : string) : bool :=
  match getenv env name with Some _ => true | None => false end.

Definition build_mode (env : Environment) : string :=
  if is_set env "AFL_HARDEN" then "hardened"
  else if (is_set env "AFL_USE_ASAN" || is_set env "AFL_USE_MSAN")%bool
       then "ASAN/MSAN"
       else "non-hardened".

Definition banner (H : Headers) : string :=
  (cCYA H ++ "afl-llvm-pass" ++ VERSION H ++ cRST H
        ++ " by <lszekeres@google.com>" ++ String "010"%char EmptyString)%string.

Definition summary (inst_blocks : nat) (mode : string) (inst_ratio : Z)
  : string :=
  ("Instrumented " ++ fmt_u (Z.of_nat inst_blocks) ++ " locations ("
     ++ mode ++ " mode, ratio " ++ fmt_u inst_ratio ++ "%).")%string.

(** The value of [inst_ratio] after the check, or [None] where [FATAL] is
    called. *)
Definition decide_ratio (env : Environment) : option Z :=
  let inst_ratio := 100 in
  match getenv env "AFL_INST_RATIO" with
  | Some inst_ratio_str =>
      let '(r, inst_ratio) := sscanf_u inst_ratio_str inst_ratio in
      if (negb (r =? 1) || (inst_ratio =? 0) || (inst_ratio >? 100))%bool
      then None
      else Some inst_ratio
  | None => Some inst_ratio
  end.

(** The result is what [SAYF], [WARNF] and [OKF] printed and how the call
    ended; a call that returns gives the return value and the module as it
    was left.  The message [FATAL] prints when it ends the run is not in
    the list: it is the message of the outcome. *)
Definition runOnModule (H : Headers) (env : Environment) (P : AFLCoverage)
           (M : Module) : list Diag * Outcome (bool * Module) :=
  (* Show a banner *)
  let be_quiet := negb (isatty env 2 && negb (is_set env "AFL_QUIET")) in
  let out := if be_quiet then [] else [SAYF (banner H)] in
  (* Decide instrumentation ratio *)
  match decide_ratio env with
  | None =>
      (out, FATAL "Bad value of AFL_INST_RATIO (must be between 1 and 100)")
  | Some inst_ratio =>
      let globals :=
        mod_globals M ++ [mk_global "__afl_area_ptr" Int8PtrTy false true] in
      (* Instrument all the things! *)
      let '(fns, inst_blocks) := visit_functions P (mod_functions M) O in
      (* Say something nice. *)
      let out :=
        if be_quiet then out
        else if Nat.eqb inst_blocks 0
             then out ++ [WARNF "No instrumentation targets found."]
             else out ++ [OKF (summary inst_blocks (build_mode env)
                                       inst_ratio)] in
      (out, Returned (true, mk_module globals fns))
  end.

(* ===================================================================== *)
(** * Running the created instructions *)
(* ===================================================================== *)

(** A 64-bit, byte-addressed, little-endian machine, enough to run the
    instructions the pass creates.  Addresses and [i64] values are taken
    modulo [2^64]. *)

Definition WORD : Z := 2 ^ 64.

(** Memory: the byte at each address. *)
Definition memory := Z -> Z.

(** The [n] bytes from address [a] on, as a little-endian number. *)
Fixpoint load_le (n : nat) (m : memory) (a : Z) : Z :=
  match n with
  | O => 0
  | S n' => m (a mod WORD) + 256 * load_le n' m (a + 1)
  end.

(** Memory after the [n] low bytes of [v] are written from address [a]
    on. *)
Definition store_le (n : Z) (m : memory) (a v : Z) : memory :=
  fun b =>
    let d := (b - a) mod WORD in
    if d <? n then (v / 256 ^ d) mod 256 else m b.

Definition bytes_of (ty : Ty) : nat :=
  match ty with Int8Ty => 1%nat | Int64Ty => 8%nat | Int8PtrTy => 8%nat end.

Definition load64 (m : memory) (a : Z) : Z := load_le 8 m a.
Definition store64 (m : memory) (a v : Z) : memory := store_le 8 m a v.

(** Addresses given to symbols when the program is linked and loaded. *)
Record Linkage := mk_linkage
  { global_addr : string -> Z;
    block_addr : string -> nat -> Z }.

Record Machine := mk_machine
  { regs : list (nat * Z);     (* results of the instructions run so far *)
    mem : memory }.

Fixpoint lookup_reg (rs : list (nat * Z)) (id : nat) : option Z :=
  match rs with
  | [] => None
  | (k, v) :: rest => if Nat.eqb k id then Some v else lookup_reg rest id
  end.

Definition eval (L : Linkage) (rs : list (nat * Z)) (v : Value) : option Z :=
  match v with
  | ConstantInt ty n => Some (n mod 2 ^ (8 * Z.of_nat (bytes_of ty)))
  | GlobalRef g => Some (global_addr L g mod WORD)
  | BlockAddress fn bb => Some (block_addr L fn bb mod WORD)
  | InstResult id => lookup_reg rs id
  end.

Definition set_reg (st : Machine) (id : nat) (v : Z) : Machine :=
  mk_machine ((id, v) :: regs st) (mem st).

(** One instruction.  [None]: the instruction is not one of those the pass
    creates, an operand has no value, or a shift amount is not below the
    width.  Integer arithmetic is on [i64], the only integer type the
    created instructions compute with; the shift amount, which the pass
    gives as an [i8] constant, is taken as the number it denotes. *)
Definition exec_inst (L : Linkage) (st : Machine) (i : Instruction)
  : option Machine :=
  match inst_op i with
  | Load ty ptr =>
      match eval L (regs st) ptr with
      | Some a => Some (set_reg st (inst_id i) (load_le (bytes_of ty) (mem st) a))
      | None => None
      end
  | GetElementPtr ptr idx =>
      match eval L (regs st) ptr, eval L (regs st) idx with
      | Some a, Some k => Some (set_reg st (inst_id i) ((a + k) mod WORD))
      | _, _ => None
      end
  | Shl a b =>
      match eval L (regs st) a, eval L (regs st) b with
      | Some x, Some k =>
          if k <? 64 then Some (set_reg st (inst_id i) ((x * 2 ^ k) mod WORD))
          else None
      | _, _ => None
      end
  | Add a b =>
      match eval L (regs st) a, eval L (regs st) b with
      | Some x, Some y => Some (set_reg st (inst_id i) ((x + y) mod WORD))
      | _, _ => None
      end
  | Store ty val ptr =>
      match eval L (regs st) val, eval L (regs st) ptr with
      | Some v, Some a =>
          Some (mk_machine (regs st)
                           (store_le (Z.of_nat (bytes_of ty)) (mem st) a v))
      | _, _ => None
      end
  | PHI | EHPad | Other _ => None
  end.

Fixpoint exec (L : Linkage) (st : Machine) (code : list Instruction)
  : option Machine :=
  match code with
  | [] => Some st
  | i :: rest =>
      match exec_inst L st i with
      | Some st' => exec L st' rest
      | None => None
      end
  end.

Definition is_memory_op (i : Instruction) : bool :=
  match inst_op i with
  | Load _ _ | Store _ _ _ => true
  | _ => false
  end.

Definition has_md (kind : string) (i : Instruction) : bool :=
  existsb (String.eqb kind) (inst_md i).

(** Instructions that only compute a value from their operands ([false]
    for the memory operations and for the instructions of the input
    program, among which are comparisons and branches). *)
Definition is_arith (i : Instruction) : bool :=
  match inst_op i with
  | GetElementPtr _ _ | Shl _ _ | Add _ _ => true
  | _ => false
  end.

(** ** The recording sequence as the design document writes it

    [idx = map[0]; map[idx] = identity; map[0] = idx + 1], on a map of
    64-bit words at address [base]. *)

Definition map_get (m : memory) (base idx : Z) : Z :=
  load64 m (base + 8 * idx).
Definition map_set (m : memory) (base idx v : Z) : memory :=
  store64 m (base + 8 * idx) v.

Definition record_block (base identity : Z) (m : memory) : memory :=
  let idx := map_get m base 0 in
  let m := map_set m base idx identity in
  map_set m base 0 ((idx + 1) mod WORD).

(** Running the sequence for the blocks [ids], in this order. *)
Definition record_trace (base : Z) (ids : list Z) (m : memory) : memory :=
  fold_left (fun m id => record_block base id m) ids m.

(* ===================================================================== *)
(** * Notions used in the statements *)
(* ===================================================================== *)

(** The last [size E] characters of [F] are [E]. *)
Definition tail_matches (F E : string) : Prop :=
  (size E <= size F)%nat /\
  substring (size F - size E) (size E) F = E.

(** The block [BB] of [F] as one iteration of the loop leaves it. *)
Definition after_visit (P : AFLCoverage) (F : Function) (BB : BasicBlock)
  : BasicBlock :=
  match visit_block P F BB with
  | Some BB' => BB'
  | None => BB
  end.

(** The block with the recording sequence at its first insertion point. *)
Definition instrumented (F : Function) (BB : BasicBlock) : BasicBlock :=
  let IP := getFirstInsertionPt BB in
  insert_before BB IP
    (build_at (inst_at BB IP)
              (instrumentation (BlockAddress (fn_name F) (bb_label BB)))).

(** Debug location the filter starts from. *)
Definition block_location (BB : BasicBlock) : DebugLoc :=
  inst_dbg (inst_at BB (getFirstInsertionPt BB)).

(** The banner is not shown and the summary is not printed. *)
Definition be_quiet (env : Environment) : bool :=
  negb (isatty env 2 && negb (is_set env "AFL_QUIET")).

(** The block at position [j] of the function at position [i]. *)
Definition block_at (M : Module) (i j : nat) : option BasicBlock :=
  match nth_error (mod_functions M) i with
  | Some F => nth_error (fn_blocks F) j
  | None => None
  end.

(** Whether the loop puts the recording sequence in [BB]. *)
Definition visited (P : AFLCoverage) (F : Function) (BB : BasicBlock) : bool :=
  match visit_block P F BB with Some _ => true | None => false end.

(** What the two loops compute, function by function: every block as one
    iteration leaves it, and the number of blocks that were changed. *)
Definition pass_function (P : AFLCoverage) (F : Function) : Function :=
  mk_fn (fn_name F) (map (after_visit P F) (fn_blocks F)).

Definition count_function (P : AFLCoverage) (F : Function) : nat :=
  List.length (filter (visited P F) (fn_blocks F)).

Definition count_module (P : AFLCoverage) (fns : list Function) : nat :=
  fold_right (fun F n => (count_function P F + n)%nat) O fns.

Definition afl_area_ptr : GlobalVariable :=
  mk_global "__afl_area_ptr" Int8PtrTy false true.

(** What a run that gets past the ratio check prints: nothing when quiet,
    else the banner and then the warning or the summary. *)
Definition no_targets : Diag := WARNF "No instrumentation targets found.".

Definition diagnostics (H : Headers) (env : Environment) (inst_blocks : nat)
           (inst_ratio : Z) : list Diag :=
  if be_quiet env then []
  else [SAYF (banner H);
        if Nat.eqb inst_blocks 0 then no_targets
        else OKF (summary inst_blocks (build_mode env) inst_ratio)].

Definition bad_ratio : string :=
  "Bad value of AFL_INST_RATIO (must be between 1 and 100)".

(** The string is read by [sscanf] as a number from 1 to 100. *)
Definition ratio_accepted (str : string) : Prop :=
  exists n, sscanf_u str 100 = (1, n) /\ 1 <= n <= 100.



(** A bound on the calls of [getline] a stream can take before it fails. *)
Definition stream_budget (f : ifstream) : nat :=
  if is_failbit f then 0%nat
  else if is_eofbit f then 1%nat
  else (2 + String.length (is_buf f))%nat.

(** Block-entry instructions: phi nodes and exception-handling pads. *)
Definition is_entry_pseudo (i : Instruction) : bool :=
  (is_phi i || isEHPad i)%bool.

(** The recording sequence for block [bb] of function [fn], created at the
    instruction [ip]. *)
Definition recording_code (ip : Instruction) (fn : string) (bb : nat)
  : list Instruction :=
  build_at ip (instrumentation (BlockAddress fn bb)).

(* ===================================================================== *)
(** * Example programs *)
(* ===================================================================== *)

(** An [if]/[else]: block 0 branches to blocks 1 and 2, which both go on
    to block 3.  The two branch targets start with a phi node and carry
    the debug locations [dbg1] and [dbg2]. *)
Definition loc_foo : DILocation := mkDILocation 10 "/home/user/src/foo.c" None.
Definition loc_bar : DILocation := mkDILocation 20 "/home/user/src/bar.c" None.
Definition loc_unnamed : DILocation := mkDILocation 7 "" None.
Definition loc_inlined : DILocation := mkDILocation 7 "" (Some loc_foo).

Definition plain (dbg : DebugLoc) : Instruction := mk_inst 0 (Other 0) [] dbg.
Definition terminator : Instruction := mk_inst 1 (Other 1) [] None.

Definition ex_entry : BasicBlock :=
  mk_bb 0 [plain (Some loc_foo)] terminator [Some 1%nat; Some 2%nat] true.
Definition ex_target (label : nat) (dbg : DebugLoc) : BasicBlock :=
  mk_bb label [mk_inst 2 PHI [] None; plain dbg] terminator [Some 3%nat] true.
Definition ex_merge : BasicBlock :=
  mk_bb 3 [plain (Some loc_foo)] terminator [] true.

Definition ex_function (dbg1 dbg2 : DebugLoc) : Function :=
  mk_fn "main" [ex_entry; ex_target 1 dbg1; ex_target 2 dbg2; ex_merge].
Definition ex_module (dbg1 dbg2 : DebugLoc) : Module :=
  mk_module [] [ex_function dbg1 dbg2].

(** An interactive terminal, no file that can be opened, and only
    [AFL_INST_RATIO] possibly set. *)
Definition ex_env (ratio : option string) : Environment :=
  mk_env (fun name => if String.eqb name "AFL_INST_RATIO" then ratio else None)
         (fun _ => true)
         (fun _ => None).
Definition ex_headers : Headers := mk_headers "2.52b" "" "".

(** The pointer variable is at address 4096 and holds 8192, the address of
    a map that is all zero; block [bb] of a function is at [4198400 + bb]. *)
Definition ex_linkage : Linkage :=
  mk_linkage (fun _ => 4096) (fun _ bb => 4198400 + Z.of_nat bb).
Definition ex_memory : memory :=
  fun a => if a =? 4097 then 32 else 0.


(* ===================================================================== *)
(** * Notions used in the further properties *)
(* ===================================================================== *)

(** Whether a string contains a newline. *)
Fixpoint has_newline (s : string) : bool :=
  match s with
  | EmptyString => false
  | String c s' => (Ascii.eqb c "010"%char || has_newline s')%bool
  end.

(** A file made of the given lines, each followed by a newline. *)
Fixpoint unlines (ls : list string) : string :=
  match ls with
  | [] => EmptyString
  | l :: rest => (l ++ String "010"%char (unlines rest))%string
  end.

(** Locations for the further examples: a location in [bar.c] inlined
    into [foo.c], and a location without file name whose inlined-at
    location has none either but is itself inlined into [foo.c]. *)
Definition loc_bar_in_foo : DILocation :=
  mkDILocation 20 "/home/user/src/bar.c" (Some loc_foo).
Definition loc_two_hops : DILocation :=
  mkDILocation 7 "" (Some loc_inlined).

(** What the pass must leave alone in a block: its label, terminator,
    successors and address; and in a function: its name and these. *)
Definition skeleton (BB : BasicBlock)
  : nat * Instruction * list (option nat) * bool :=
  (bb_label BB, bb_term BB, bb_succs BB, bb_addressable BB).

Definition shape (F : Function)
  : string * list (nat * Instruction * list (option nat) * bool) :=
  (fn_name F, map skeleton (fn_blocks F)).

(** Number of instructions before the terminators, in a function and in a
    list of functions, and the number of blocks. *)
Definition body_size (F : Function) : nat :=
  list_sum (map (fun BB => List.length (bb_body BB)) (fn_blocks F)).

Definition body_instructions (fns : list Function) : nat :=
  list_sum (map body_size fns).

Definition block_count (fns : list Function) : nat :=
  list_sum (map (fun F => List.length (fn_blocks F)) fns).

(** Whether a string starts with a decimal digit. *)
Definition starts_with_digit (s : string) : bool :=
  match s with
  | String c _ => match digit_of c with Some _ => true | None => false end
  | EmptyString => false
  end.

(** The program runs through instrumented blocks one after the other:
    for each, given with the instruction its sequence was created at, its
    function and its label, the recording sequence is run on the memory
    the one before left. *)
Fixpoint exec_blocks (L : Linkage)
         (blocks : list (Instruction * string * nat)) (m : memory)
  : option memory :=
  match blocks with
  | [] => Some m
  | (ip, fn, bb) :: rest =>
      match exec L (mk_machine [] m) (recording_code ip fn bb) with
      | Some st => exec_blocks L rest (mem st)
      | None => None
      end
  end.

(** The addresses the blocks are linked at, as stored identities. *)
Definition identities (L : Linkage) (blocks : list (Instruction * string * nat))
  : list Z :=
  map (fun b => match b with (_, fn, bb) => block_addr L fn bb mod WORD end)
      blocks.

(** The eight bytes at [a] do not overlap the map word [k]. *)
Definition apart_from_word (a base k : Z) : Prop :=
  forall i, 0 <= i < 8 -> 8 <= ((a + i) mod WORD - (base + 8 * k)) mod WORD.

(** As [ex_memory], with the counter of the map at 1. *)
Definition ex_memory_started : memory :=
  fun a => if a =? 4097 then 32 else if a =? 8192 then 1 else 0.

(** As [ex_memory], with the counter of the map at [2^61]. *)
Definition ex_memory_wrapped : memory :=
  fun a => if a =? 4097 then 32 else if a =? 8199 then 32 else 0.

(** The [if]/[else] of the examples compiled without debug information:
    no instruction has a location. *)
Definition ex_function_nodebug : Function :=
  mk_fn "main"
        [mk_bb 0 [plain None] terminator [Some 1%nat; Some 2%nat] true;
         ex_target 1 None; ex_target 2 None;
         mk_bb 3 [plain None] terminator [] true].

(** A function whose first block ends in a conditional branch with both
    targets the same block. *)
Definition ex_function_same_target : Function :=
  mk_fn "g"
        [mk_bb 0 [plain None] terminator [Some 1%nat; Some 1%nat] true;
         mk_bb 1 [plain None] terminator [] true].

(** The blocks a block can go to: the labels among the successor operands
    of its terminator, each once. *)
Definition successor_blocks (Pred : BasicBlock) : list nat :=
  nodup Nat.eq_dec
        (flat_map (fun s => match s with Some l => [l] | None => [] end)
                  (successors Pred)).

(** The blocks of [F] that can go to [BB], each once. *)
Definition predecessor_blocks (F : Function) (BB : BasicBlock)
  : list BasicBlock :=
  filter (fun Pred =>
            existsb (fun s => option_nat_eqb s (bb_label BB)) (successors Pred))
         (fn_blocks F).

(** The eight instructions the pass creates for block [bb] of function
    [fn], written out one by one: the load of the map pointer, the address
    of the counter, the load of the counter, the shift by 3, the address
    of the slot, the store of the block address, the addition of 1 and the
    store of the counter.  [dbg] is the debug location of the instruction
    they are put before. *)
Definition sequence_written_out (dbg : DebugLoc) (fn : string) (bb : nat)
  : list Instruction :=
  [mk_inst 0 (Load Int8PtrTy (GlobalRef "__afl_area_ptr")) ["nosanitize"] dbg;
   mk_inst 1 (GetElementPtr (InstResult 0) (ConstantInt Int64Ty 0)) [] dbg;
   mk_inst 2 (Load Int64Ty (InstResult 1)) ["nosanitize"] dbg;
   mk_inst 3 (Shl (InstResult 2) (ConstantInt Int8Ty 3)) [] dbg;
   mk_inst 4 (GetElementPtr (InstResult 0) (InstResult 3)) [] dbg;
   mk_inst 5 (Store Int8PtrTy (BlockAddress fn bb) (InstResult 4))
           ["nosanitize"] dbg;
   mk_inst 6 (Add (InstResult 2) (ConstantInt Int64Ty 1)) [] dbg;
   mk_inst 7 (Store Int64Ty (InstResult 6) (InstResult 1)) ["nosanitize"] dbg].



(** All the text of a run on the diagnostic stream: what [SAYF], [WARNF]
    and [OKF] printed, and then the message [FATAL] or
    [report_fatal_error] prints when it ends the run. *)
Definition diag_text (d : Diag) : string :=
  match d with SAYF t => t | WARNF t => t | OKF t => t end.

Definition everything_printed {A} (r : list Diag * Outcome A) : list string :=
  map diag_text (fst r)
  ++ match snd r with
     | Returned _ => []
     | report_fatal_error msg => [msg]
     | FATAL msg => [msg]
     end.

(* ===================================================================== *)
(** * Strings *)
(* ===================================================================== *)

Section Strings.

Lemma traits_compare_refl (a : string) (n : nat) :
  traits_compare a a n = 0.
Proof.
  revert a; induction n as [|n IH]; intros [|x a]; simpl; trivial.
  now rewrite Ascii.eqb_refl.
Qed.

Lemma N_of_ascii_inj (x y : ascii) : N_of_ascii x = N_of_ascii y -> x = y.
Proof.
  intros E. rewrite <- (ascii_N_embedding x), <- (ascii_N_embedding y).
  now rewrite E.
Qed.

(** On strings of the compared length, a zero result is equality. *)
Lemma traits_compare_zero (a b : string) :
  String.length a = String.length b ->
  traits_compare a b (String.length a) = 0 -> a = b.
Proof.
  revert b; induction a as [|x a IH]; intros [|y b]; simpl; try discriminate;
    trivial.
  intros L; injection L as L.
  destruct (Ascii.eqb x y) eqn:E.
  - apply Ascii.eqb_eq in E; subst y. intros C. now rewrite (IH b L C).
  - intros C. apply Ascii.eqb_neq in E. exfalso; apply E.
    apply N_of_ascii_inj. lia.
Qed.

Lemma substring_length (s : string) (n m : nat) :
  (n + m <= String.length s)%nat -> String.length (substring n m s) = m.
Proof.
  revert n m; induction s as [|c s IH]; intros [|n] [|m]; simpl; intros L;
    trivial; try lia.
  - f_equal. apply (IH O m). lia.
  - apply (IH n 0%nat). lia.
  - apply (IH n (S m)). lia.
Qed.

Lemma substring_append_tail (p e : string) :
  substring (String.length p) (String.length e) (p ++ e)%string = e.
Proof.
  induction p as [|c p IH]; simpl.
  - induction e as [|c e IH]; simpl; trivial. now rewrite IH.
  - exact IH.
Qed.

Lemma substring_split (s : string) (n m : nat) :
  (n + m = String.length s)%nat ->
  s = (substring 0 n s ++ substring n m s)%string.
Proof.
  revert n m; induction s as [|c s IH]; intros [|n] m; simpl; intros L.
  - now subst m.
  - discriminate.
  - destruct m as [|m]; [discriminate|]. simpl. f_equal.
    injection L as L. specialize (IH O m L). simpl in IH.
    destruct s; simpl in *; [now subst m | exact IH].
  - f_equal. apply IH. lia.
Qed.

Lemma append_length (a b : string) :
  String.length (a ++ b)%string = (String.length a + String.length b)%nat.
Proof. induction a; simpl; auto. Qed.

(** A tail match is the same thing as being a suffix. *)
Lemma tail_matches_suffix (F E : string) :
  tail_matches F E <-> exists p, F = (p ++ E)%string.
Proof.
  unfold tail_matches, size; split.
  - intros [L S]. exists (substring 0 (String.length F - String.length E) F).
    pose proof (substring_split F (String.length F - String.length E)
                                (String.length E)) as H.
    rewrite S in H. apply H. lia.
  - intros [p ->]. rewrite append_length. split; [lia|].
    replace (String.length p + String.length E - String.length E)%nat
      with (String.length p) by lia.
    apply substring_append_tail.
Qed.

(** The comparison in the loop over the allow-list never throws, and gives
    zero exactly on a tail match. *)
Lemma string_compare_tail (F E : string) :
  (size E <= size F)%nat ->
  exists r, string_compare F (size F - size E) (size E) E = Some r /\
            (r = 0 <-> tail_matches F E).
Proof.
  intros L. unfold string_compare, tail_matches.
  assert (Hlt : Nat.ltb (size F) (size F - size E) = false)
    by (apply Nat.ltb_ge; lia).
  rewrite Hlt.
  replace (Nat.min (size E) (size F - (size F - size E))) with (size E)
    by lia.
  rewrite Nat.min_id.
  set (sub := substring (size F - size E) (size E) F).
  assert (Hlen : String.length sub = size E)
    by (apply substring_length; unfold size in *; lia).
  eexists; split; [reflexivity|].
  destruct (traits_compare sub E (size E) =? 0) eqn:C.
  - apply Z.eqb_eq in C. split; [|lia]. intros _. split; [exact L|].
    apply traits_compare_zero; [exact Hlen | now rewrite Hlen].
  - apply Z.eqb_neq in C. split; [contradiction|].
    intros [_ S]. exfalso; apply C. fold sub in S. rewrite S.
    apply traits_compare_refl.
Qed.

Lemma whitelist_scan_spec (F : string) (wl : list string) :
  whitelist_scan F wl = true <-> exists E, In E wl /\ tail_matches F E.
Proof.
  induction wl as [|it rest IH]; simpl.
  - split; [discriminate | intros (E & [] & _)].
  - destruct (Nat.leb (size it) (size F)) eqn:L.
    + apply Nat.leb_le in L.
      destruct (string_compare_tail F it L) as (r & -> & Hr).
      destruct (Z.eq_dec r 0) as [->|Hn].
      * split; [|trivial]. intros _. exists it. split; [now left|].
        now apply Hr.
      * assert (Hgo : match r with 0 => true | _ => whitelist_scan F rest end
                      = whitelist_scan F rest) by (destruct r; congruence).
        rewrite Hgo, IH. split.
        -- intros (E & HE & T). exists E. split; [now right | exact T].
        -- intros (E & [<-|HE] & T); [|now exists E].
           exfalso; apply Hn; now apply Hr.
    + apply Nat.leb_gt in L. rewrite IH. split.
      * intros (E & HE & T). exists E. split; [now right | exact T].
      * intros (E & [<-|HE] & T); [|now exists E].
        destruct T as [T _]. lia.
Qed.

End Strings.

(* ===================================================================== *)
(** * The constructor *)
(* ===================================================================== *)

Section Constructor.

Lemma take_line_shorter (s l rest : string) :
  take_line s = (l, Some rest) -> (String.length rest < String.length s)%nat.
Proof.
  revert l; induction s as [|c s IH]; intros l; cbn [take_line].
  - discriminate.
  - destruct (Ascii.eqb c "010"%char).
    + intros E; injection E as _ <-. simpl. lia.
    + destruct (take_line s) as [l' r]. intros E; injection E as _ ->.
      specialize (IH l' eq_refl). simpl. lia.
Qed.

Lemma getline_progress (f : ifstream) (line : string) :
  stream_fails f = false ->
  (stream_budget (fst (getline f line)) < stream_budget f)%nat.
Proof.
  unfold stream_fails, getline, stream_budget. intros NF. rewrite NF.
  destruct (is_eofbit f); cbn [orb fst is_failbit is_eofbit is_buf].
  - lia.
  - destruct (take_line (is_buf f)) as [l [rest|]] eqn:T;
      cbn [fst is_failbit is_eofbit is_buf].
    + apply take_line_shorter in T. lia.
    + destruct l; lia.
Qed.

(** The loop of the constructor ends because the stream fails, not because
    the bound on its iterations is reached. *)
Lemma whitelist_loop_exits (fuel : nat) (f : ifstream) (line : string)
      (wl : list string) :
  (stream_budget f < fuel)%nat ->
  stream_fails (fst (whitelist_loop fuel f line wl)) = true.
Proof.
  revert f line wl; induction fuel as [|fuel IH]; intros f line wl B;
    [lia|].
  cbn [whitelist_loop]. destruct (stream_fails f) eqn:SF; [exact SF|].
  pose proof (getline_progress f line SF) as G.
  destruct (getline f line) as [f' line']. apply IH. simpl in G. lia.
Qed.

Lemma constructor_loop_exits (content : string) :
  let '(f, line) := getline (mk_ifstream content false false) EmptyString in
  stream_fails (fst (whitelist_loop (2 + size content) f line [])) = true.
Proof.
  pose proof (getline_progress (mk_ifstream content false false)
                               EmptyString eq_refl) as G.
  destruct (getline (mk_ifstream content false false) EmptyString)
    as [f line].
  apply whitelist_loop_exits. cbn [fst] in G.
  unfold stream_budget at 2 in G. cbn [is_failbit is_eofbit is_buf] in G.
  unfold size. lia.
Qed.

End Constructor.

(* ===================================================================== *)
(** * The predecessor test *)
(* ===================================================================== *)

Section Predecessors.

Lemma more_than_one_step_one (acc : Z) (Pred : BasicBlock) :
  more_than_one_step acc Pred = 1 <-> acc = 1 \/ 2 <= count_successors Pred.
Proof.
  unfold more_than_one_step.
  destruct (count_successors Pred >? 1) eqn:C.
  - apply Z.gtb_lt in C. split; [right; lia | trivial].
  - assert (count_successors Pred <= 1)
      by (destruct (Z.gtb_spec (count_successors Pred) 1); [discriminate|lia]).
    destruct (acc =? -1) eqn:A.
    + apply Z.eqb_eq in A. lia.
    + lia.
Qed.

Lemma fold_more_than_one (preds : list BasicBlock) (acc : Z) :
  fold_left more_than_one_step preds acc = 1 <->
  acc = 1 \/ exists Pred, In Pred preds /\ 2 <= count_successors Pred.
Proof.
  revert acc; induction preds as [|p preds IH]; intros acc; simpl.
  - split; [now left | intros [A | (q & [] & _)]; exact A].
  - rewrite IH, more_than_one_step_one. split.
    + intros [[A|C] | (q & Hq & C)].
      * now left.
      * right. exists p. split; [now left | exact C].
      * right. exists q. split; [now right | exact C].
    + intros [A | (q & [<-|Hq] & C)].
      * left; now left.
      * left; now right.
      * right. now exists q.
Qed.

(** The test [more_than_one != 1] lets a block through exactly when one of
    its predecessors has two or more successors. *)
Lemma more_than_one_spec (F : Function) (BB : BasicBlock) :
  more_than_one F BB = 1 <->
  exists Pred, In Pred (predecessors F BB) /\ 2 <= count_successors Pred.
Proof.
  unfold more_than_one. rewrite fold_more_than_one. split.
  - intros [A | E]; [discriminate | exact E].
  - intros E; now right.
Qed.

Lemma more_than_one_no_predecessor (F : Function) (BB : BasicBlock) :
  predecessors F BB = [] -> more_than_one F BB = -1.
Proof. unfold more_than_one. now intros ->. Qed.

(** The predecessors of a block are the blocks of the function that have
    it among their successors. *)
Lemma in_predecessors (F : Function) (BB Pred : BasicBlock) :
  In Pred (predecessors F BB) <->
  In Pred (fn_blocks F) /\ In (Some (bb_label BB)) (successors Pred).
Proof.
  unfold predecessors, uses_of. rewrite in_flat_map. split.
  - intros (b & Hb & Hin). apply in_map_iff in Hin as (s & <- & Hs).
    apply filter_In in Hs as [Hs E]. split; [exact Hb|].
    destruct s as [x|]; simpl in E; [|discriminate].
    apply Nat.eqb_eq in E. now subst x.
  - intros [Hb Hs]. exists Pred. split; [exact Hb|].
    apply in_map_iff. exists (Some (bb_label BB)). split; [reflexivity|].
    apply filter_In. split; [exact Hs|]. simpl. apply Nat.eqb_refl.
Qed.

(** The test reads only the labels and the successor lists. *)
Lemma step_same_succs (acc : Z) (b b' : BasicBlock) :
  bb_succs b = bb_succs b' ->
  more_than_one_step acc b = more_than_one_step acc b'.
Proof.
  intros E. unfold more_than_one_step, count_successors, successors.
  now rewrite E.
Qed.

Lemma fold_uses_same_succs (BB BB' b b' : BasicBlock) (acc : Z) :
  bb_label BB = bb_label BB' -> bb_succs b = bb_succs b' ->
  fold_left more_than_one_step (uses_of BB b) acc =
  fold_left more_than_one_step (uses_of BB' b') acc.
Proof.
  intros EL ES. unfold uses_of, successors. rewrite EL, ES.
  generalize (filter (fun s => option_nat_eqb s (bb_label BB')) (bb_succs b')).
  intros l; revert acc; induction l as [|x l IH]; intros acc; simpl; trivial.
  rewrite (step_same_succs acc b b' ES). apply IH.
Qed.

Lemma fold_preds_same_cfg (BB BB' : BasicBlock) (bs bs' : list BasicBlock)
      (acc : Z) :
  bb_label BB = bb_label BB' -> map bb_succs bs = map bb_succs bs' ->
  fold_left more_than_one_step (flat_map (uses_of BB) bs) acc =
  fold_left more_than_one_step (flat_map (uses_of BB') bs') acc.
Proof.
  intros EL. revert bs' acc; induction bs as [|b bs IH];
    intros [|b' bs'] acc E; simpl in *; try discriminate; trivial.
  injection E as E1 E2. rewrite !fold_left_app.
  rewrite (fold_uses_same_succs BB BB' b b' acc EL E1). now apply IH.
Qed.

Lemma more_than_one_same_cfg (F F' : Function) (BB : BasicBlock) :
  map bb_succs (fn_blocks F) = map bb_succs (fn_blocks F') ->
  more_than_one F BB = more_than_one F' BB.
Proof.
  intros E. unfold more_than_one, predecessors.
  now apply fold_preds_same_cfg.
Qed.

End Predecessors.

(* ===================================================================== *)
(** * The loops *)
(* ===================================================================== *)

Section Loops.

Variable P : AFLCoverage.

Lemma visit_block_same_cfg (F F' : Function) (BB : BasicBlock) :
  fn_name F = fn_name F' ->
  map bb_succs (fn_blocks F) = map bb_succs (fn_blocks F') ->
  visit_block P F BB = visit_block P F' BB.
Proof.
  intros EN EC. unfold visit_block, BlockAddress_get.
  now rewrite (more_than_one_same_cfg F F' BB EC), EN.
Qed.

(** The new instructions leave the label and the successors alone. *)
Lemma after_visit_succs (F : Function) (BB : BasicBlock) :
  bb_succs (after_visit P F BB) = bb_succs BB.
Proof.
  unfold after_visit, visit_block.
  repeat match goal with
         | |- context [if ?c then _ else _] => destruct c
         | |- context [match BlockAddress_get ?f ?b with _ => _ end] =>
             destruct (BlockAddress_get f b)
         end; reflexivity.
Qed.

Lemma after_visit_label (F : Function) (BB : BasicBlock) :
  bb_label (after_visit P F BB) = bb_label BB.
Proof.
  unfold after_visit, visit_block.
  repeat match goal with
         | |- context [if ?c then _ else _] => destruct c
         | |- context [match BlockAddress_get ?f ?b with _ => _ end] =>
             destruct (BlockAddress_get f b)
         end; reflexivity.
Qed.

(** Changing the function in place does not change what the loop does: a
    block is treated as it would be in the function the loop started
    with. *)
Lemma visit_blocks_spec (F : Function) (todo done : list BasicBlock)
      (n : nat) :
  map bb_succs (done ++ todo) = map bb_succs (fn_blocks F) ->
  visit_blocks P (fn_name F) done todo n =
  (done ++ map (after_visit P F) todo,
   (n + List.length (filter (visited P F) todo))%nat).
Proof.
  revert done n; induction todo as [|BB rest IH]; intros done n E; simpl.
  - now rewrite app_nil_r, Nat.add_0_r.
  - assert (EV : visit_block P (mk_fn (fn_name F) (done ++ BB :: rest)) BB
                 = visit_block P F BB)
      by (apply visit_block_same_cfg; [reflexivity | exact E]).
    rewrite EV.
    assert (ES : map bb_succs ((done ++ [after_visit P F BB]) ++ rest)
                 = map bb_succs (fn_blocks F)).
    { rewrite <- E, <- app_assoc. simpl. rewrite !map_app. simpl.
      now rewrite after_visit_succs. }
    unfold visited at 1. unfold after_visit at 1 in ES.
    unfold after_visit at 1.
    destruct (visit_block P F BB) as [BB'|]; rewrite (IH _ _ ES);
      rewrite <- app_assoc; simpl; f_equal; lia.
Qed.

Lemma visit_functions_spec (fns : list Function) (n : nat) :
  visit_functions P fns n =
  (map (pass_function P) fns, (n + count_module P fns)%nat).
Proof.
  revert n; induction fns as [|F fns IH]; intros n; simpl.
  - now rewrite Nat.add_0_r.
  - rewrite (visit_blocks_spec F (fn_blocks F) [] n eq_refl), IH. simpl.
    unfold pass_function at 1, count_function. f_equal. lia.
Qed.

End Loops.

(* ===================================================================== *)
(** * The run as a whole *)
(* ===================================================================== *)

Section Run.

Variables (H : Headers) (env : Environment) (P : AFLCoverage) (M : Module).

Lemma runOnModule_returns (inst_ratio : Z) :
  decide_ratio env = Some inst_ratio ->
  runOnModule H env P M =
  (diagnostics H env (count_module P (mod_functions M)) inst_ratio,
   Returned (true, mk_module (mod_globals M ++ [afl_area_ptr])
                             (map (pass_function P) (mod_functions M)))).
Proof.
  intros R. unfold runOnModule, diagnostics. rewrite R.
  rewrite visit_functions_spec. simpl. fold (be_quiet env).
  destruct (be_quiet env); [reflexivity|].
  now destruct (Nat.eqb (count_module P (mod_functions M)) 0).
Qed.

Lemma runOnModule_fatal :
  decide_ratio env = None ->
  runOnModule H env P M =
  (if be_quiet env then [] else [SAYF (banner H)], FATAL bad_ratio).
Proof. intros R. unfold runOnModule. now rewrite R. Qed.

(** A run that returns leaves, at each position, the block that one
    iteration of the loop makes of the block that was there. *)
Lemma runOnModule_block (out : list Diag) (b : bool) (M' : Module)
      (i j : nat) (F : Function) (BB : BasicBlock) :
  runOnModule H env P M = (out, Returned (b, M')) ->
  nth_error (mod_functions M) i = Some F ->
  nth_error (fn_blocks F) j = Some BB ->
  block_at M' i j = Some (after_visit P F BB).
Proof.
  intros R HF HB.
  destruct (decide_ratio env) as [r|] eqn:D.
  - rewrite (runOnModule_returns r D) in R. injection R as _ _ <-.
    unfold block_at. simpl.
    rewrite (map_nth_error (pass_function P) i (mod_functions M) HF).
    simpl. now apply map_nth_error.
  - rewrite (runOnModule_fatal D) in R. discriminate.
Qed.

End Run.

(** What [sscanf] stores is an [unsigned int]. *)
Lemma sscanf_u_range (str : string) (x n : Z) :
  sscanf_u str x = (1, n) -> 0 <= n < UINT_MODULUS.
Proof.
  unfold sscanf_u.
  destruct (skip_spaces str) as [|c rest]; [discriminate|].
  match goal with
  | |- context [scan_digits ?b None] => destruct (scan_digits b None)
  end; [|discriminate].
  intros E; injection E as <-. apply Z.mod_pos_bound. reflexivity.
Qed.

(** The check lets through exactly the strings that [sscanf] reads as a
    number from 1 to 100, and [inst_ratio] is then that number. *)
Lemma decide_ratio_accepted (env : Environment) (str : string) (r : Z) :
  getenv env "AFL_INST_RATIO" = Some str ->
  (decide_ratio env = Some r <->
   sscanf_u str 100 = (1, r) /\ 1 <= r <= 100).
Proof.
  intros G. unfold decide_ratio. rewrite G.
  destruct (sscanf_u str 100) as [ret x] eqn:S. split.
  - destruct (ret =? 1) eqn:R1; [|discriminate].
    apply Z.eqb_eq in R1. subst ret.
    destruct (x =? 0) eqn:Z0; [discriminate|].
    destruct (x >? 100) eqn:Z1; [discriminate|]. simpl.
    intros E; injection E as <-.
    apply Z.eqb_neq in Z0.
    pose proof (sscanf_u_range str 100 x S) as [Hx _].
    assert (x <= 100) by (destruct (Z.gtb_spec x 100); [discriminate|lia]).
    split; [reflexivity | lia].
  - intros [E Hr]. injection E as -> ->. simpl.
    destruct (r =? 0) eqn:Z0; [apply Z.eqb_eq in Z0; lia|].
    destruct (r >? 100) eqn:Z1; [apply Z.gtb_lt in Z1; lia|]. reflexivity.
Qed.

Lemma decide_ratio_rejected (env : Environment) (str : string) :
  getenv env "AFL_INST_RATIO" = Some str ->
  (decide_ratio env = None <-> ~ ratio_accepted str).
Proof.
  intros G. split.
  - intros D (n & S & Hn).
    assert (decide_ratio env = Some n)
      by (apply (decide_ratio_accepted env str n G); now split).
    congruence.
  - intros N. destruct (decide_ratio env) as [r|] eqn:D; [|reflexivity].
    exfalso; apply N. exists r.
    now apply (decide_ratio_accepted env str r G).
Qed.

Lemma decide_ratio_unset (env : Environment) :
  getenv env "AFL_INST_RATIO" = None -> decide_ratio env = Some 100.
Proof. intros G. unfold decide_ratio. now rewrite G. Qed.

Lemma decide_ratio_range (env : Environment) (r : Z) :
  decide_ratio env = Some r -> 1 <= r <= 100.
Proof.
  destruct (getenv env "AFL_INST_RATIO") as [str|] eqn:G.
  - intros D. now apply (decide_ratio_accepted env str r G) in D.
  - rewrite (decide_ratio_unset env G). intros E; injection E as <-. lia.
Qed.

(* ===================================================================== *)
(** * Target selection *)
(* ===================================================================== *)

Lemma visit_block_not_selected (P : AFLCoverage) (F : Function)
      (BB : BasicBlock) :
  more_than_one F BB <> 1 -> visit_block P F BB = None.
Proof.
  intros N. unfold visit_block.
  match goal with |- (if ?c then _ else _) = _ => destruct c end; trivial.
  destruct (more_than_one F BB =? 1) eqn:E; [|reflexivity].
  apply Z.eqb_eq in E. contradiction.
Qed.

Lemma visit_block_filtered (P : AFLCoverage) (F : Function)
      (BB : BasicBlock) :
  myWhitelist P <> [] ->
  instrumentBlock (myWhitelist P) (block_location BB) = false ->
  visit_block P F BB = None.
Proof.
  intros N I. unfold visit_block. fold (block_location BB). rewrite I.
  destruct (myWhitelist P); [contradiction | reflexivity].
Qed.

Lemma visit_block_selected (P : AFLCoverage) (F : Function)
      (BB : BasicBlock) :
  (myWhitelist P = [] \/
   instrumentBlock (myWhitelist P) (block_location BB) = true) ->
  more_than_one F BB = 1 ->
  bb_addressable BB = true ->
  visit_block P F BB = Some (instrumented F BB).
Proof.
  intros W S A. unfold visit_block, instrumented, BlockAddress_get.
  fold (block_location BB). rewrite S, A. simpl.
  destruct W as [-> | ->]; [reflexivity|].
  now rewrite andb_false_r.
Qed.

(** C3, as the code has it.  A block without predecessors, or whose
    predecessors all have at most one successor operand in their
    terminator, is never instrumented: the loop skips it, and the module
    the pass returns has the block unchanged at its position.  The
    operands are counted one by one, the null ones left out. *)
Theorem fallthrough_blocks_are_never_instrumented
        (H : Headers) (env : Environment) (P : AFLCoverage) (M M' : Module)
        (out : list Diag) (i j : nat) (F : Function) (BB : BasicBlock) :
  runOnModule H env P M = (out, Returned (true, M')) ->
  nth_error (mod_functions M) i = Some F ->
  nth_error (fn_blocks F) j = Some BB ->
  (predecessors F BB = [] \/
   forall Pred, In Pred (predecessors F BB) -> count_successors Pred <= 1) ->
  visit_block P F BB = None /\ block_at M' i j = Some BB.
Proof.
  intros R HF HB HP.
  assert (V : visit_block P F BB = None).
  { apply visit_block_not_selected. rewrite more_than_one_spec.
    intros (Pred & HIn & C). destruct HP as [E | A].
    - rewrite E in HIn. destruct HIn.
    - specialize (A Pred HIn). lia. }
  split; [exact V|].
  rewrite (runOnModule_block H env P M out true M' i j F BB R HF HB).
  unfold after_visit. now rewrite V.
Qed.

Lemma fallthrough_blocks_witness :
  exists out M',
    runOnModule ex_headers (ex_env None) (mk_pass [])
                (ex_module (Some loc_foo) (Some loc_bar))
    = (out, Returned (true, M')) /\
    visit_block (mk_pass []) (ex_function (Some loc_foo) (Some loc_bar))
                ex_merge = None /\
    block_at M' 0 3 = Some ex_merge.
Proof.
  eexists. eexists. split; [reflexivity|].
  eapply (fallthrough_blocks_are_never_instrumented
            ex_headers (ex_env None) (mk_pass [])
            (ex_module (Some loc_foo) (Some loc_bar)));
    [reflexivity | reflexivity | reflexivity |].
  right. intros Pred HIn. simpl in HIn.
  destruct HIn as [<- | [<- | []]]; vm_compute; discriminate.
Defined.

(** C3, as the claim has it, fails.  Block 0 of the example ends in a
    conditional branch whose two targets are both block 1.  Block 1 has
    one predecessor, block 0, and block 0 has one successor, block 1; but
    the terminator of block 0 has two successor operands, the loop over
    them counts 2, and block 1 is instrumented. *)
Lemma twice_named_target_is_instrumented :
  let Pred := mk_bb 0 [plain None] terminator [Some 1%nat; Some 1%nat] true in
  let BB := mk_bb 1 [plain None] terminator [] true in
  let BB' := mk_bb 1 (sequence_written_out None "g" 1 ++ [plain None])
                   terminator [] true in
  fn_blocks ex_function_same_target = [Pred; BB] /\
  predecessor_blocks ex_function_same_target BB = [Pred] /\
  successor_blocks Pred = [1%nat] /\
  count_successors Pred = 2 /\
  more_than_one ex_function_same_target BB = 1 /\
  visit_block (mk_pass []) ex_function_same_target BB = Some BB' /\
  runOnModule ex_headers (ex_env None) (mk_pass [])
              (mk_module [] [ex_function_same_target]) =
  ([SAYF (banner ex_headers);
    OKF "Instrumented 1 locations (non-hardened mode, ratio 100%)."],
   Returned (true, mk_module [afl_area_ptr] [mk_fn "g" [Pred; BB']])).
Proof. cbv zeta. repeat split; reflexivity. Qed.

(* ===================================================================== *)
(** * The allow-list filter *)
(* ===================================================================== *)

Lemma instrumentBlock_resolved (wl : list string) (l : DILocation) :
  instrumentBlock wl (Some l) =
  (negb (empty (fst (resolve_location l)))
   && whitelist_scan (fst (resolve_location l)) wl)%bool.
Proof.
  unfold instrumentBlock. destruct (resolve_location l) as [f n]. simpl.
  now destruct (empty f).
Qed.

Lemma empty_spec (str : string) : empty str = true <-> str = EmptyString.
Proof. destruct str; simpl; split; congruence. Qed.

(** C1, as the code has it.  With a non-empty allow-list, a block whose
    insertion point has no debug location, or whose resolved file name is
    empty, is dropped by the filter: the loop skips it whatever its
    predecessors and its address are, and the module the pass returns has
    the block unchanged at its position. *)
Theorem unlocated_blocks_are_dropped
        (H : Headers) (env : Environment) (P : AFLCoverage) (M M' : Module)
        (out : list Diag) (i j : nat) (F : Function) (BB : BasicBlock) :
  runOnModule H env P M = (out, Returned (true, M')) ->
  nth_error (mod_functions M) i = Some F ->
  nth_error (fn_blocks F) j = Some BB ->
  myWhitelist P <> [] ->
  (block_location BB = None \/
   exists l, block_location BB = Some l /\
             fst (resolve_location l) = EmptyString) ->
  instrumentBlock (myWhitelist P) (block_location BB) = false /\
  visit_block P F BB = None /\
  block_at M' i j = Some BB.
Proof.
  intros R HF HB HW HL.
  assert (I : instrumentBlock (myWhitelist P) (block_location BB) = false).
  { destruct HL as [-> | (l & -> & E)]; [reflexivity|].
    rewrite instrumentBlock_resolved, E. reflexivity. }
  assert (V : visit_block P F BB = None)
    by (now apply visit_block_filtered).
  split; [exact I|]. split; [exact V|].
  rewrite (runOnModule_block H env P M out true M' i j F BB R HF HB).
  unfold after_visit. now rewrite V.
Qed.

Lemma unlocated_blocks_witness :
  exists out M',
    runOnModule ex_headers (ex_env None) (mk_pass ["foo.c"])
                (ex_module (Some loc_unnamed) (Some loc_foo))
    = (out, Returned (true, M')) /\
    instrumentBlock ["foo.c"] (block_location (ex_target 1 (Some loc_unnamed)))
    = false /\
    visit_block (mk_pass ["foo.c"])
                (ex_function (Some loc_unnamed) (Some loc_foo))
                (ex_target 1 (Some loc_unnamed)) = None /\
    block_at M' 0 1 = Some (ex_target 1 (Some loc_unnamed)).
Proof.
  eexists. eexists. split; [reflexivity|].
  eapply (unlocated_blocks_are_dropped
            ex_headers (ex_env None) (mk_pass ["foo.c"])
            (ex_module (Some loc_unnamed) (Some loc_foo)));
    [reflexivity | reflexivity | reflexivity | discriminate |].
  right. exists loc_unnamed. split; reflexivity.
Defined.

(** C1, as the claim has it, fails.  The allow-list is ["foo.c"]; block 1
    of the example has no debug location at its insertion point, is the
    target of a two-way branch and is addressable.  The filter says no,
    the loop skips the block, and the pass returns the module with the
    block as it was, having instrumented only block 2.  The same happens
    when the location is there but names no file. *)
Lemma unlocated_block_is_not_kept :
  let P := mk_pass ["foo.c"] in
  let F := ex_function None (Some loc_foo) in
  let BB := ex_target 1 None in
  myWhitelist P <> [] /\
  nth_error (fn_blocks F) 1 = Some BB /\
  block_location BB = None /\
  more_than_one F BB = 1 /\
  BlockAddress_get F BB = Some (BlockAddress "main" 1) /\
  instrumentBlock (myWhitelist P) (block_location BB) = false /\
  visit_block P F BB = None /\
  visit_block P (ex_function (Some loc_unnamed) (Some loc_foo))
              (ex_target 1 (Some loc_unnamed)) = None /\
  runOnModule ex_headers (ex_env None) P (ex_module None (Some loc_foo)) =
  ([SAYF (banner ex_headers);
    OKF "Instrumented 1 locations (non-hardened mode, ratio 100%)."],
   Returned
     (true,
      mk_module [afl_area_ptr]
        [mk_fn "main"
           [ex_entry; BB; instrumented F (ex_target 2 (Some loc_foo));
            ex_merge]])).
Proof.
  cbv zeta. repeat split; try reflexivity. discriminate.
Qed.

(** C5. With a non-empty allow-list, a block whose resolved file name is
    not empty passes the filter exactly when the name ends in one of the
    entries: the entry is not longer than the name and equals its last
    characters.  So "foo.c" keeps "/home/user/src/foo.c", which it does
    not equal, and drops "/home/user/src/bar.c". *)
Theorem filter_is_a_tail_comparison
        (P : AFLCoverage) (BB : BasicBlock) (l : DILocation) (Fn : string) :
  myWhitelist P <> [] ->
  block_location BB = Some l ->
  fst (resolve_location l) = Fn ->
  Fn <> EmptyString ->
  (instrumentBlock (myWhitelist P) (block_location BB) = true <->
   exists E, In E (myWhitelist P) /\
             (size E <= size Fn)%nat /\
             substring (size Fn - size E) (size E) Fn = E) /\
  (forall Fd, (instrumentBlock (myWhitelist P) (block_location BB) = false ->
               visit_block P Fd BB = None)) /\
  instrumentBlock ["foo.c"] (Some loc_foo) = true /\
  instrumentBlock ["foo.c"] (Some loc_bar) = false.
Proof.
  intros HW HL HF HN. split; [|split; [|split; reflexivity]].
  - rewrite HL, instrumentBlock_resolved, HF.
    assert (E : empty Fn = false).
    { destruct (empty Fn) eqn:E; [|reflexivity].
      apply empty_spec in E. contradiction. }
    rewrite E. simpl. apply whitelist_scan_spec.
  - intros Fd I. now apply visit_block_filtered.
Qed.

Lemma filter_tail_comparison_witness :
  (instrumentBlock ["foo.c"] (block_location (ex_target 1 (Some loc_foo)))
   = true <->
   exists E, In E ["foo.c"] /\
             (size E <= size "/home/user/src/foo.c")%nat /\
             substring (size "/home/user/src/foo.c" - size E) (size E)
                       "/home/user/src/foo.c" = E).
Proof.
  apply (filter_is_a_tail_comparison
           (mk_pass ["foo.c"]) (ex_target 1 (Some loc_foo)) loc_foo
           "/home/user/src/foo.c");
    [discriminate | reflexivity | reflexivity | discriminate].
Defined.

(** C8. When the location of the insertion point has an empty file name
    and an inlined-at location, the file name and the line of the
    inlined-at location are the ones used, and the allow-list is matched
    against that file name. *)
Theorem inlined_location_is_preferred
        (line : Z) (oDILoc : DILocation) (wl : list string) :
  resolve_location (mkDILocation line EmptyString (Some oDILoc)) =
  (getFilename oDILoc, getLine oDILoc) /\
  instrumentBlock wl (Some (mkDILocation line EmptyString (Some oDILoc))) =
  (negb (empty (getFilename oDILoc))
   && whitelist_scan (getFilename oDILoc) wl)%bool /\
  resolve_location loc_inlined = ("/home/user/src/foo.c", 10) /\
  instrumentBlock ["foo.c"] (Some loc_inlined) = true /\
  instrumentBlock ["foo.c"] (Some loc_unnamed) = false.
Proof.
  split; [reflexivity|]. split; [|repeat split; reflexivity].
  now rewrite instrumentBlock_resolved.
Qed.

(* ===================================================================== *)
(** * Configuration and summary *)
(* ===================================================================== *)




Lemma count_module_zero (P : AFLCoverage) (fns : list Function) :
  count_module P fns = O -> map (pass_function P) fns = fns.
Proof.
  induction fns as [|F fns IH]; simpl; trivial.
  intros C.
  assert (CF : count_function P F = O) by lia.
  assert (CM : count_module P fns = O) by lia.
  rewrite (IH CM). f_equal.
  unfold pass_function, count_function in *. destruct F as [name blocks].
  simpl in *. f_equal.
  induction blocks as [|BB blocks IB]; simpl in *; trivial.
  unfold visited, after_visit in *.
  destruct (visit_block P (mk_fn name (BB :: blocks)) BB) eqn:V;
    [discriminate|].
  f_equal.
  (* the remaining blocks are visited in the same function *)
  clear IB.
  assert (G : forall F0 bs,
             List.length
               (filter (fun b => match visit_block P F0 b with
                                 | Some _ => true | None => false end) bs)
             = O ->
             map (fun b => match visit_block P F0 b with
                           | Some b' => b' | None => b end) bs = bs).
  { intros F0 bs. induction bs as [|b bs IHb]; simpl; trivial.
    destruct (visit_block P F0 b); simpl; [discriminate|].
    intros L. now rewrite (IHb L). }
  apply G. exact CF.
Qed.

(** C7. When no block is instrumented, the pass warns, unless it is quiet,
    and still returns [true], with the functions of the module as they
    were.  A module without functions is such a case. *)
Theorem no_targets_is_only_a_warning
        (H : Headers) (env : Environment) (P : AFLCoverage) (M : Module)
        (inst_ratio : Z) :
  decide_ratio env = Some inst_ratio ->
  snd (visit_functions P (mod_functions M) O) = O ->
  runOnModule H env P M =
  (if be_quiet env then [] else [SAYF (banner H); no_targets],
   Returned (true, mk_module (mod_globals M ++ [afl_area_ptr])
                             (mod_functions M))) /\
  (mod_functions M = [] ->
   snd (visit_functions P (mod_functions M) O) = O).
Proof.
  intros D C. split.
  - rewrite visit_functions_spec in C. simpl in C.
    rewrite (runOnModule_returns H env P M inst_ratio D).
    rewrite (count_module_zero P _ C). unfold diagnostics. now rewrite C.
  - now intros ->.
Qed.

Lemma no_targets_witness :
  runOnModule ex_headers (ex_env (Some "1")) (mk_pass ["foo.c"])
              (mk_module [] []) =
  ([SAYF (banner ex_headers); no_targets],
   Returned (true, mk_module [afl_area_ptr] [])).
Proof.
  apply (no_targets_is_only_a_warning
           ex_headers (ex_env (Some "1")) (mk_pass ["foo.c"])
           (mk_module [] []) 1); reflexivity.
Defined.

(** C9. The ratio is checked and shown, and that is all: two runs whose
    ratios are both valid return the same module and instrument the same
    blocks, each block being decided by [visit_block], which is not given
    the ratio; the ratio appears in the summary line. *)
Theorem ratio_is_not_consulted
        (H : Headers) (env1 env2 : Environment) (P : AFLCoverage) (M : Module)
        (r1 r2 : Z) :
  decide_ratio env1 = Some r1 ->
  decide_ratio env2 = Some r2 ->
  (1 <= r1 <= 100 /\ 1 <= r2 <= 100) /\
  snd (runOnModule H env1 P M) = snd (runOnModule H env2 P M) /\
  snd (runOnModule H env1 P M) =
  Returned (true, mk_module (mod_globals M ++ [afl_area_ptr])
                            (map (pass_function P) (mod_functions M))) /\
  (be_quiet env1 = false ->
   snd (visit_functions P (mod_functions M) O) <> O ->
   fst (runOnModule H env1 P M) =
   [SAYF (banner H);
    OKF (summary (snd (visit_functions P (mod_functions M) O))
                 (build_mode env1) r1)]).
Proof.
  intros D1 D2. split; [|split; [|split]].
  - split; eapply decide_ratio_range; eassumption.
  - now rewrite (runOnModule_returns H env1 P M r1 D1),
      (runOnModule_returns H env2 P M r2 D2).
  - now rewrite (runOnModule_returns H env1 P M r1 D1).
  - intros Q N. rewrite (runOnModule_returns H env1 P M r1 D1).
    rewrite visit_functions_spec in *. simpl in *.
    unfold diagnostics. rewrite Q.
    destruct (count_module P (mod_functions M)); [contradiction|reflexivity].
Qed.

Lemma ratio_not_consulted_witness :
  snd (runOnModule ex_headers (ex_env (Some "1")) (mk_pass [])
                   (ex_module None None)) =
  snd (runOnModule ex_headers (ex_env (Some "100")) (mk_pass [])
                   (ex_module None None)) /\
  fst (runOnModule ex_headers (ex_env (Some "1")) (mk_pass [])
                   (ex_module None None)) =
  [SAYF (banner ex_headers);
   OKF "Instrumented 2 locations (non-hardened mode, ratio 1%)."].
Proof.
  destruct (ratio_is_not_consulted
              ex_headers (ex_env (Some "1")) (ex_env (Some "100"))
              (mk_pass []) (ex_module None None) 1 100
              eq_refl eq_refl) as (_ & Hsame & _ & Hout).
  split; [exact Hsame|].
  rewrite Hout; [reflexivity | reflexivity | discriminate].
Defined.

(* ===================================================================== *)
(** * Memory *)
(* ===================================================================== *)

Section Memory.

Lemma WORD_pos : 0 < WORD.
Proof. reflexivity. Qed.

Lemma WORD_value : WORD = 18446744073709551616.
Proof. reflexivity. Qed.

(** Loads read memory only at the addresses they cover. *)
Lemma load_le_agree (n : nat) (m m' : memory) (a : Z) :
  (forall i, 0 <= i < Z.of_nat n -> m ((a + i) mod WORD) = m' ((a + i) mod WORD)) ->
  load_le n m a = load_le n m' a.
Proof.
  revert a; induction n as [|n IH]; intros a E; cbn [load_le]; trivial.
  rewrite <- (Z.add_0_r a) at 1 3. rewrite (E 0) by lia.
  rewrite (IH (a + 1)); [reflexivity|].
  intros i Hi. rewrite <- Z.add_assoc. apply E. lia.
Qed.

Lemma load_le_ext (n : nat) (m m' : memory) (a : Z) :
  (forall b, m b = m' b) -> load_le n m a = load_le n m' a.
Proof. intros E. apply load_le_agree. intros i _. apply E. Qed.

(** Addresses count modulo [2^64]. *)
Lemma load_le_addr (n : nat) (m : memory) (a a' : Z) :
  a mod WORD = a' mod WORD -> load_le n m a = load_le n m a'.
Proof.
  revert a a'; induction n as [|n IH]; intros a a' E; cbn [load_le]; trivial.
  rewrite E. f_equal. f_equal. apply IH.
  rewrite Z.add_mod, E, <- Z.add_mod; trivial; discriminate.
Qed.

Lemma store_le_addr (n : Z) (m : memory) (a a' v b : Z) :
  a mod WORD = a' mod WORD -> store_le n m a v b = store_le n m a' v b.
Proof.
  intros E. unfold store_le.
  replace ((b - a) mod WORD) with ((b - a') mod WORD); [reflexivity|].
  rewrite (Zminus_mod b a'), <- E, <- Zminus_mod. reflexivity.
Qed.

Lemma store_le_ext (n : Z) (m m' : memory) (a v b : Z) :
  (forall x, m x = m' x) -> store_le n m a v b = store_le n m' a v b.
Proof. intros E. unfold store_le. now rewrite E. Qed.

(** A second store to the same address hides the first. *)
Lemma store_le_twice (n : Z) (m : memory) (a v v' b : Z) :
  store_le n (store_le n m a v) a v' b = store_le n m a v' b.
Proof. unfold store_le. now destruct ((b - a) mod WORD <? n). Qed.

(** Reading back the bytes of a store. *)
Lemma load_le_store_le (n : nat) (m : memory) (a v k : Z) :
  0 <= k -> k + Z.of_nat n <= 8 ->
  load_le n (store_le 8 m a v) (a + k) = (v / 256 ^ k) mod 256 ^ Z.of_nat n.
Proof.
  revert k; induction n as [|n IH]; intros k Hk Hn.
  - simpl. now rewrite Z.mod_1_r.
  - cbn [load_le]. rewrite <- Z.add_assoc, (IH (k + 1)) by lia.
    unfold store_le at 1.
    replace (((a + k) mod WORD - a) mod WORD) with k.
    2:{ rewrite Zminus_mod_idemp_l. replace (a + k - a) with k by lia.
        rewrite Z.mod_small; [reflexivity|]. rewrite WORD_value. lia. }
    replace (k <? 8) with true by (symmetry; apply Z.ltb_lt; lia).
    rewrite Nat2Z.inj_succ, Z.pow_succ_r by lia.
    rewrite Z.pow_add_r, Z.pow_1_r by lia.
    rewrite <- Z.div_div by (try apply Z.pow_pos_nonneg; lia).
    symmetry. apply Z.rem_mul_r; [lia|]. apply Z.pow_pos_nonneg; lia.
Qed.

Lemma load64_store64_same (m : memory) (a v : Z) :
  load64 (store64 m a v) a = v mod WORD.
Proof.
  unfold load64, store64.
  rewrite <- (Z.add_0_r a) at 2.
  rewrite load_le_store_le by lia.
  now rewrite Z.pow_0_r, Z.div_1_r.
Qed.

(** A load next to a store sees the memory before the store. *)
Lemma load64_store64_other (m : memory) (a a' v : Z) :
  (forall i, 0 <= i < 8 -> 8 <= ((a' + i) mod WORD - a) mod WORD) ->
  load64 (store64 m a v) a' = load64 m a'.
Proof.
  intros D. unfold load64, store64. apply load_le_agree. intros i Hi.
  unfold store_le. specialize (D i Hi).
  destruct (Z.ltb_spec (((a' + i) mod WORD - a) mod WORD) 8); [lia|reflexivity].
Qed.

End Memory.

(* ===================================================================== *)
(** * The recording sequence on the map *)
(* ===================================================================== *)

Section RecordingSequence.

Lemma map_get_set_same (m : memory) (base k v : Z) :
  map_get (map_set m base k v) base k = v mod WORD.
Proof. apply load64_store64_same. Qed.

(** Distinct words of the map do not overlap. *)
Lemma map_get_set_other (m : memory) (base j k v : Z) :
  0 <= j < 2 ^ 61 -> 0 <= k < 2 ^ 61 -> j <> k ->
  map_get (map_set m base k v) base j = map_get m base j.
Proof.
  intros Hj Hk N. unfold map_get, map_set.
  apply load64_store64_other. intros i Hi.
  rewrite Zminus_mod_idemp_l.
  replace (base + 8 * j + i - (base + 8 * k)) with (8 * (j - k) + i) by lia.
  change (2 ^ 61) with 2305843009213693952 in *.
  destruct (Z_lt_le_dec j k).
  - replace (8 * (j - k) + i) with ((8 * (j - k) + i + WORD) + (-1) * WORD)
      by lia.
    rewrite Z.mod_add by discriminate.
    rewrite Z.mod_small; rewrite WORD_value; lia.
  - rewrite Z.mod_small; rewrite ?WORD_value; lia.
Qed.

Lemma map_get_ext (m m' : memory) (base k : Z) :
  (forall b, m b = m' b) -> map_get m base k = map_get m' base k.
Proof. intros E. now apply load_le_ext. Qed.

Lemma record_block_ext (base id : Z) (m m' : memory) :
  (forall b, m b = m' b) ->
  forall b, record_block base id m b = record_block base id m' b.
Proof.
  intros E b. unfold record_block, map_set, store64.
  rewrite (map_get_ext m m' base 0 E).
  apply store_le_ext. intros x. now apply store_le_ext.
Qed.

(** The counter after the sequence. *)
Lemma record_block_counter (base id : Z) (m : memory) :
  map_get (record_block base id m) base 0 = (map_get m base 0 + 1) mod WORD.
Proof.
  unfold record_block. rewrite map_get_set_same. apply Z.mod_mod. discriminate.
Qed.

(** The identity is in the word the counter named, unless that is word 0. *)
Lemma record_block_identity (base id : Z) (m : memory) :
  0 < map_get m base 0 < 2 ^ 61 ->
  map_get (record_block base id m) base (map_get m base 0) = id mod WORD.
Proof.
  intros Hc. unfold record_block.
  rewrite map_get_set_other; [apply map_get_set_same | lia | lia | lia].
Qed.

(** The other words stay as they are. *)
Lemma record_block_frame (base id j : Z) (m : memory) :
  0 <= map_get m base 0 < 2 ^ 61 -> 0 < j < 2 ^ 61 ->
  j <> map_get m base 0 ->
  map_get (record_block base id m) base j = map_get m base j.
Proof.
  intros Hc Hj N. unfold record_block.
  rewrite map_get_set_other by lia. now rewrite map_get_set_other by lia.
Qed.

(** With the counter at 0 the identity is lost: the memory afterwards is
    the one where only the counter was set to 1. *)
Lemma record_block_first (base id : Z) (m : memory) :
  map_get m base 0 = 0 ->
  forall b, record_block base id m b = map_set m base 0 1 b.
Proof.
  intros C b. unfold record_block. rewrite C.
  unfold map_set, store64. apply store_le_twice.
Qed.

Lemma record_trace_ext (base : Z) (ids : list Z) (m m' : memory) :
  (forall b, m b = m' b) ->
  forall b, record_trace base ids m b = record_trace base ids m' b.
Proof.
  revert m m'; induction ids as [|id ids IH]; intros m m' E; simpl;
    [exact E|].
  apply IH. now apply record_block_ext.
Qed.

(** Running the sequence for [ids] from counter [c]: the counter ends at
    [c + length ids], the words below [c] are untouched, and the identity
    of the [k]-th block is in word [c + k], except in word 0. *)
Lemma record_trace_spec (base : Z) (ids : list Z) :
  forall (m : memory) (c : Z),
    map_get m base 0 = c -> 0 <= c ->
    c + Z.of_nat (List.length ids) < 2 ^ 61 ->
    let m' := record_trace base ids m in
    map_get m' base 0 = c + Z.of_nat (List.length ids) /\
    (forall j, 0 < j < c -> map_get m' base j = map_get m base j) /\
    (forall k, (k < List.length ids)%nat -> 0 < c + Z.of_nat k ->
               map_get m' base (c + Z.of_nat k) = nth k ids 0 mod WORD).
Proof.
  induction ids as [|id ids IH]; intros m c C Hc Hn; cbn zeta.
  - simpl. split; [lia|]. split; [trivial|]. intros k Hk. simpl in Hk. lia.
  - cbn [record_trace fold_left]. fold (record_trace base ids (record_block base id m)).
    cbn [List.length] in *. rewrite Nat2Z.inj_succ in *.
    assert (C1 : map_get (record_block base id m) base 0 = c + 1).
    { rewrite record_block_counter, C. apply Z.mod_small.
      rewrite WORD_value. change (2 ^ 61) with 2305843009213693952 in Hn. lia. }
    destruct (IH (record_block base id m) (c + 1) C1) as (I1 & I2 & I3);
      [lia | lia |].
    split; [lia|]. split.
    + intros j Hj. rewrite I2 by lia.
      apply record_block_frame; rewrite ?C; lia.
    + intros [|k] Hk Hpos.
      * rewrite Z.add_0_r in *. rewrite I2 by lia. cbn [nth].
        rewrite <- C. apply record_block_identity. rewrite C.
        change (2 ^ 61) with 2305843009213693952 in *. lia.
      * cbn [nth]. replace (c + Z.of_nat (S k)) with (c + 1 + Z.of_nat k) by lia.
        apply I3; lia.
Qed.

End RecordingSequence.

(* ===================================================================== *)
(** * The created instructions *)
(* ===================================================================== *)

Section Execution.

Variables (L : Linkage) (ip : Instruction) (fn : string) (bb : nat).

Ltac run_code :=
  cbn [build_at instrumentation bind ret CreateLoad CreateGEP CreateShl
       CreateAdd CreateStore Insert setMetadata snd fst irb_insts irb_dbg
       app List.length update_nth add_md type_of_value type_of_op nth_error
       inst_op inst_id inst_md inst_dbg AFLMapPtr];
  cbn [exec exec_inst eval lookup_reg regs mem set_reg Nat.eqb inst_op
       inst_id bytes_of add_md].

Lemma exec_instrumentation (m : memory) :
  exists st,
    exec L (mk_machine [] m)
         (build_at ip (instrumentation (BlockAddress fn bb))) = Some st /\
    forall b,
      mem st b =
      record_block (load64 m (global_addr L "__afl_area_ptr"))
                   (block_addr L fn bb mod WORD) m b.
Proof.
  run_code.
  change (0 mod 2 ^ (8 * Z.of_nat 8)) with 0.
  change (1 mod 2 ^ (8 * Z.of_nat 8)) with 1.
  change (3 mod 2 ^ (8 * Z.of_nat 1)) with 3.
  change (3 <? 64) with true. cbn iota.
  eexists. split; [reflexivity|]. intros b. cbn [mem regs set_reg].
  change (Z.of_nat 8) with 8.
  rewrite (load_le_addr 8 m (global_addr L "__afl_area_ptr" mod WORD)
                        (global_addr L "__afl_area_ptr"))
    by (apply Z.mod_mod; discriminate).
  unfold record_block, map_get, map_set, load64, store64.
  set (base := load_le 8 m (global_addr L "__afl_area_ptr")).
  rewrite (load_le_addr 8 m ((base + 0) mod WORD) (base + 8 * 0))
    by (rewrite Z.mod_mod by discriminate; f_equal; lia).
  set (idx := load_le 8 m (base + 8 * 0)).
  rewrite (store_le_addr 8 _ ((base + 0) mod WORD) (base + 8 * 0))
    by (rewrite Z.mod_mod by discriminate; f_equal; lia).
  apply store_le_ext. intros x.
  apply store_le_addr.
  rewrite Z.mod_mod by discriminate.
  rewrite Z.add_mod_idemp_r by discriminate.
  f_equal. change (2 ^ 3) with 8. lia.
Qed.

End Execution.

Section InsertionPoint.

Lemma visit_block_some (P : AFLCoverage) (F : Function) (BB BB' : BasicBlock) :
  visit_block P F BB = Some BB' -> BB' = instrumented F BB.
Proof.
  unfold visit_block, instrumented, BlockAddress_get.
  repeat match goal with
         | |- context [if ?c then _ else _] => destruct c
         end; try discriminate.
  now intros E; injection E as <-.
Qed.

(** Everything before the insertion point is a phi node or a pad. *)
Lemma entry_pseudo_before_insertion_point (BB : BasicBlock) :
  forallb is_entry_pseudo (firstn (getFirstInsertionPt BB) (bb_body BB))
  = true.
Proof.
  unfold getFirstInsertionPt. induction (bb_body BB) as [|i body IH].
  - reflexivity.
  - cbn [firstNonPHI]. destruct (is_phi i) eqn:Ph.
    + cbn [nth_error].
      destruct (nth_error body (firstNonPHI body)) as [x|];
        [destruct (isEHPad x)|]; cbn [firstn forallb] in *;
        unfold is_entry_pseudo at 1; rewrite Ph; exact IH.
    + cbn [nth_error]. destruct (isEHPad i) eqn:Pad; [|reflexivity].
      cbn [firstn forallb]. unfold is_entry_pseudo. now rewrite Ph, Pad.
Qed.

End InsertionPoint.

(** C2. In a block that survives the tests, the new instructions stand at
    the first insertion point, after the phi nodes and pads.  Run on any
    memory, they do what [idx = map[0]; map[idx] = identity;
    map[0] = idx + 1] does on the map the pointer variable refers to, with
    the block's address as identity.  Their memory operations are the load
    of the pointer, the load of the counter, the store of the identity and
    the store of the counter, each tagged "nosanitize".  The other
    instructions only compute addresses and the new counter: nothing
    compares [idx] with anything, and the store is done for every value of
    the counter. *)
Theorem injected_code_records_the_block
        (P : AFLCoverage) (F : Function) (BB BB' : BasicBlock)
        (L : Linkage) (m : memory) :
  visit_block P F BB = Some BB' ->
  let IP := getFirstInsertionPt BB in
  let code := recording_code (inst_at BB IP) (fn_name F) (bb_label BB) in
  let base := load64 m (global_addr L "__afl_area_ptr") in
  let identity := block_addr L (fn_name F) (bb_label BB) mod WORD in
  bb_body BB' = firstn IP (bb_body BB) ++ code ++ skipn IP (bb_body BB) /\
  forallb is_entry_pseudo (firstn IP (bb_body BB)) = true /\
  (exists st,
      exec L (mk_machine [] m) code = Some st /\
      forall b, mem st b = record_block base identity m b) /\
  map inst_op (filter is_memory_op code) =
  [Load Int8PtrTy (GlobalRef "__afl_area_ptr");
   Load Int64Ty (InstResult 1);
   Store Int8PtrTy (BlockAddress (fn_name F) (bb_label BB)) (InstResult 4);
   Store Int64Ty (InstResult 6) (InstResult 1)] /\
  forallb (fun i => implb (is_memory_op i) (has_md "nosanitize" i)) code
  = true /\
  forallb (fun i => (is_memory_op i || is_arith i)%bool) code = true.
Proof.
  intros V IP code base identity.
  apply visit_block_some in V. subst BB'.
  split; [reflexivity|].
  split; [apply entry_pseudo_before_insertion_point|].
  split; [apply exec_instrumentation|].
  repeat split; reflexivity.
Qed.

Lemma injected_code_witness :
  let F := ex_function None (Some loc_bar) in
  let BB := ex_target 1 None in
  let code := recording_code (plain None) "main" 1 in
  bb_body (instrumented F BB) = [mk_inst 2 PHI [] None] ++ code ++ [plain None]
  /\
  exists st,
    exec ex_linkage (mk_machine [] ex_memory) code = Some st /\
    forall b, mem st b = record_block 8192 4198401 ex_memory b.
Proof.
  cbv zeta.
  destruct (injected_code_records_the_block
              (mk_pass []) (ex_function None (Some loc_bar))
              (ex_target 1 None)
              (instrumented (ex_function None (Some loc_bar))
                            (ex_target 1 None))
              ex_linkage ex_memory eq_refl)
    as (Hbody & _ & Hexec & _).
  split; [exact Hbody | exact Hexec].
Defined.

(** C10. Run when the counter word holds [c], the created instructions
    store the identity at byte offset [8 * c] of the map (word [c]) and
    then set word 0 to [c + 1].  For [c] from 1 on the identity is read
    back from word [c].  For [c = 0] both stores go to word 0 and the
    memory afterwards is the one where only the counter was set to 1: the
    identity is gone.  So in a run that starts with the counter at 0, word
    0 holds the number of blocks recorded, the identity of the [k]-th
    recorded block is in word [k] for [k] from 1 on, and the identity of
    the first recorded block is nowhere. *)
Theorem first_identity_is_overwritten
        (L : Linkage) (ip : Instruction) (fn : string) (bb : nat)
        (m : memory) (c : Z) :
  let code := recording_code ip fn bb in
  let base := load64 m (global_addr L "__afl_area_ptr") in
  let identity := block_addr L fn bb mod WORD in
  map_get m base 0 = c ->
  (exists st,
      exec L (mk_machine [] m) code = Some st /\
      (forall b,
          mem st b =
          store64 (store64 m (base + 8 * c) identity)
                  (base + 8 * 0) ((c + 1) mod WORD) b) /\
      map_get (mem st) base 0 = (c + 1) mod WORD /\
      (0 < c < 2 ^ 61 -> map_get (mem st) base c = identity) /\
      (c = 0 -> forall b, mem st b = map_set m base 0 1 b)) /\
  (c = 0 ->
   forall ids,
     Z.of_nat (List.length ids) < 2 ^ 61 ->
     map_get (record_trace base ids m) base 0 = Z.of_nat (List.length ids) /\
     (forall k, (0 < k < List.length ids)%nat ->
                map_get (record_trace base ids m) base (Z.of_nat k)
                = nth k ids 0 mod WORD) /\
     (forall id id' b,
         record_trace base (id :: tl ids) m b
         = record_trace base (id' :: tl ids) m b)).
Proof.
  intros code base identity C. split.
  - destruct (exec_instrumentation L ip fn bb m) as (st & E & Hmem).
    fold base identity in Hmem. exists st. split; [exact E|].
    split; [|split; [|split]].
    + intros b. rewrite Hmem. unfold record_block. now rewrite C.
    + rewrite (map_get_ext _ _ base 0 Hmem), record_block_counter.
      now rewrite C.
    + intros Hc. rewrite (map_get_ext _ _ base c Hmem). rewrite <- C at 1.
      rewrite record_block_identity by (rewrite C; exact Hc).
      unfold identity. apply Z.mod_mod. discriminate.
    + intros C0 b. rewrite Hmem. apply record_block_first. now rewrite C.
  - intros C0 ids Hn. subst c.
    destruct (record_trace_spec base ids m 0 C0) as (T1 & _ & T3);
      [lia | lia |].
    split; [rewrite T1; lia|]. split.
    + intros k Hk. apply (T3 k); lia.
    + intros id id' b. cbn [record_trace fold_left].
      fold (record_trace base (tl ids) (record_block base id m)).
      fold (record_trace base (tl ids) (record_block base id' m)).
      apply record_trace_ext. intros x.
      now rewrite !record_block_first.
Qed.

Lemma first_identity_witness :
  exists st,
    exec ex_linkage (mk_machine [] ex_memory)
         (recording_code (plain None) "main" 1) = Some st /\
    map_get (mem st) 8192 0 = 1 /\
    forall b, mem st b = map_set ex_memory 8192 0 1 b.
Proof.
  destruct (first_identity_is_overwritten
              ex_linkage (plain None) "main" 1 ex_memory 0 eq_refl)
    as ((st & E & _ & Hcount & _ & Hfirst) & _).
  exists st. split; [exact E|]. split; [exact Hcount|].
  exact (Hfirst eq_refl).
Defined.

(* ===================================================================== *)
(** * Scenarios *)
(* ===================================================================== *)

(** An [if]/[else] without allow-list: the two branch targets are
    instrumented, the entry block and the block where the branches meet
    are not. *)
Example scenario_if_else :
  let F := ex_function (Some loc_foo) (Some loc_bar) in
  runOnModule ex_headers (ex_env None) (mk_pass [])
              (ex_module (Some loc_foo) (Some loc_bar)) =
  ([SAYF (banner ex_headers);
    OKF "Instrumented 2 locations (non-hardened mode, ratio 100%)."],
   Returned
     (true,
      mk_module [afl_area_ptr]
        [mk_fn "main"
           [ex_entry;
            instrumented F (ex_target 1 (Some loc_foo));
            instrumented F (ex_target 2 (Some loc_bar));
            ex_merge]])).
Proof. reflexivity. Qed.

(** The same program with the allow-list ["foo.c"]: the block from
    [foo.c] is instrumented, the one from [bar.c] is not. *)
Example scenario_allow_list :
  let F := ex_function (Some loc_foo) (Some loc_bar) in
  snd (runOnModule ex_headers (ex_env None) (mk_pass ["foo.c"])
                   (ex_module (Some loc_foo) (Some loc_bar))) =
  Returned
    (true,
     mk_module [afl_area_ptr]
       [mk_fn "main"
          [ex_entry;
           instrumented F (ex_target 1 (Some loc_foo));
           ex_target 2 (Some loc_bar);
           ex_merge]]).
Proof. reflexivity. Qed.

(** What [sscanf] makes of some ratio strings: characters after the
    digits are not read, white space and a sign before them are, and a
    negative number is stored as a large unsigned one. *)
Example ratio_strings :
  sscanf_u "50abc" 100 = (1, 50) /\
  sscanf_u " +7" 100 = (1, 7) /\
  sscanf_u "-5" 100 = (1, 4294967291) /\
  sscanf_u "" 100 = (EOF, 100) /\
  sscanf_u "abc" 100 = (0, 100).
Proof. repeat split; reflexivity. Qed.

(** The allow-list read from a file: one entry for each line, an empty
    line included, and none for the end of file after the last newline. *)
Example allow_list_file :
  AFLCoverage_new
    (mk_env (fun _ => Some "list.txt") (fun _ => true)
            (fun _ => Some ("foo.c" ++ String "010"%char EmptyString
                            ++ String "010"%char EmptyString
                            ++ "bar.c" ++ String "010"%char EmptyString)%string))
  = Returned (mk_pass ["foo.c"; EmptyString; "bar.c"]).
Proof. reflexivity. Qed.

(* ===================================================================== *)
(** * Further properties: the allow-list file *)
(* ===================================================================== *)

Section AllowListFile.

Lemma take_line_no_newline (s : string) :
  has_newline (fst (take_line s)) = false.
Proof.
  induction s as [|c s IH]; cbn [take_line]; [reflexivity|].
  destruct (Ascii.eqb c "010"%char) eqn:E; [reflexivity|].
  destruct (take_line s) as [l r]. cbn [fst has_newline] in *.
  now rewrite E, IH.
Qed.

Lemma take_line_whole (l : string) :
  has_newline l = false -> take_line l = (l, None).
Proof.
  induction l as [|c l IH]; cbn [take_line has_newline]; [reflexivity|].
  destruct (Ascii.eqb c "010"%char); [discriminate|]. cbn [orb].
  intros N. now rewrite (IH N).
Qed.

Lemma take_line_first (l rest : string) :
  has_newline l = false ->
  take_line (l ++ String "010"%char rest)%string = (l, Some rest).
Proof.
  induction l as [|c l IH]; cbn [take_line has_newline append].
  - reflexivity.
  - destruct (Ascii.eqb c "010"%char); [discriminate|]. cbn [orb].
    intros N. now rewrite (IH N).
Qed.

Lemma has_newline_append (a b : string) :
  has_newline (a ++ b)%string = (has_newline a || has_newline b)%bool.
Proof.
  induction a as [|c a IH]; cbn [append has_newline]; [reflexivity|].
  now rewrite IH, orb_assoc.
Qed.

(** The loop once the end of the file was reached by the last [getline]. *)
Lemma whitelist_loop_at_eof (fuel : nat) (buf line : string) (failed : bool)
      (wl : list string) :
  (2 <= fuel)%nat ->
  snd (whitelist_loop fuel (mk_ifstream buf true failed) line wl) =
  if failed then wl else wl ++ [line].
Proof.
  destruct fuel as [|[|fuel]]; try lia. intros _.
  cbn [whitelist_loop stream_fails is_failbit].
  destruct failed; [reflexivity|].
  cbn [getline is_eofbit is_failbit is_buf orb whitelist_loop stream_fails].
  reflexivity.
Qed.

(** The loop when a line was read and the lines [ls], then [last], are
    still in the stream. *)
Lemma whitelist_loop_lines (ls : list string) (last : string) :
  Forall (fun l => has_newline l = false) ls ->
  has_newline last = false ->
  forall (fuel : nat) (line : string) (wl : list string),
    (List.length ls + 3 <= fuel)%nat ->
    snd (whitelist_loop fuel
           (mk_ifstream (unlines ls ++ last)%string false false) line wl) =
    wl ++ line :: ls ++ (if empty last then [] else [last]).
Proof.
  intros Hls Hlast. induction Hls as [|l ls Hl Hls IH];
    intros fuel line wl Hfuel.
  - destruct fuel as [|fuel]; [simpl in Hfuel; lia|].
    cbn [whitelist_loop stream_fails is_failbit unlines append].
    cbn [getline is_eofbit is_failbit is_buf orb].
    rewrite (take_line_whole last Hlast).
    rewrite whitelist_loop_at_eof by (simpl in Hfuel; lia).
    destruct last as [|c last']; cbn [empty app];
      [reflexivity | now rewrite <- app_assoc].
  - destruct fuel as [|fuel]; [simpl in Hfuel; lia|].
    cbn [whitelist_loop stream_fails is_failbit].
    cbn [getline is_eofbit is_failbit is_buf orb unlines].
    replace ((l ++ String "010"%char (unlines ls)) ++ last)%string
      with (l ++ String "010"%char (unlines ls ++ last))%string.
    2:{ clear. induction l as [|c l IHl]; cbn [append]; [reflexivity|].
        now rewrite IHl. }
    rewrite (take_line_first l _ Hl).
    rewrite IH by (cbn [List.length] in Hfuel; lia).
    rewrite <- app_assoc. reflexivity.
Qed.

Lemma unlines_length (ls : list string) :
  (List.length ls <= String.length (unlines ls))%nat.
Proof.
  induction ls as [|l ls IH]; cbn [unlines List.length]; [lia|].
  rewrite append_length. cbn [String.length]. lia.
Qed.

Lemma whitelist_loop_no_newline (fuel : nat) :
  forall (f : ifstream) (line : string) (wl : list string),
    has_newline line = false ->
    Forall (fun l => has_newline l = false) wl ->
    Forall (fun l => has_newline l = false)
           (snd (whitelist_loop fuel f line wl)).
Proof.
  induction fuel as [|fuel IH]; intros f line wl Hl Hwl;
    cbn [whitelist_loop]; [exact Hwl|].
  destruct (stream_fails f); [exact Hwl|].
  destruct (getline f line) as [f' line'] eqn:G. apply IH.
  - unfold getline in G.
    destruct (is_eofbit f || is_failbit f)%bool.
    + injection G as _ <-. exact Hl.
    + pose proof (take_line_no_newline (is_buf f)) as T.
      destruct (take_line (is_buf f)) as [l [r|]]; injection G as _ <-;
        exact T.
  - apply Forall_app. split; [exact Hwl|]. constructor; [exact Hl|constructor].
Qed.

End AllowListFile.

(** X1. Reading back an allow-list file.  If the file consists of the
    lines [ls], each followed by a newline, and then of [last] without a
    newline, the constructor makes the allow-list [ls], followed by [last]
    unless it is empty.  An empty file gives the empty allow-list. *)
Theorem allow_list_is_the_lines_of_the_file
        (env : Environment) (path : string) (ls : list string)
        (last : string) :
  getenv env "AFL_LLVM_WHITELIST" = Some path ->
  open_file env path = Some (unlines ls ++ last)%string ->
  Forall (fun l => has_newline l = false) ls ->
  has_newline last = false ->
  AFLCoverage_new env =
  Returned (mk_pass (ls ++ (if empty last then [] else [last]))).
Proof.
  intros G O Hls Hlast. unfold AFLCoverage_new. rewrite G, O.
  destruct ls as [|l ls].
  - cbn [unlines append app getline is_eofbit is_failbit is_buf orb].
    rewrite (take_line_whole last Hlast).
    rewrite whitelist_loop_at_eof by lia.
    destruct last; reflexivity.
  - inversion Hls as [|? ? Hl Hls']; subst.
    cbn [getline is_eofbit is_failbit is_buf orb unlines].
    replace ((l ++ String "010"%char (unlines ls)) ++ last)%string
      with (l ++ String "010"%char (unlines ls ++ last))%string.
    2:{ clear. induction l as [|c l IHl]; cbn [append]; [reflexivity|].
        now rewrite IHl. }
    rewrite (take_line_first l _ Hl).
    rewrite (whitelist_loop_lines ls last Hls' Hlast).
    + reflexivity.
    + pose proof (unlines_length ls). unfold size.
      rewrite append_length. cbn [String.length]. rewrite append_length. lia.
Qed.

Lemma allow_list_lines_witness :
  AFLCoverage_new
    (mk_env (fun _ => Some "list.txt") (fun _ => true)
            (fun _ => Some (unlines ["foo.c"; "lib/bar.c"] ++ "baz.c")%string))
  = Returned (mk_pass ["foo.c"; "lib/bar.c"; "baz.c"]).
Proof.
  apply (allow_list_is_the_lines_of_the_file
           (mk_env (fun _ => Some "list.txt") (fun _ => true)
                   (fun _ => Some (unlines ["foo.c"; "lib/bar.c"] ++ "baz.c")%string))
           "list.txt" ["foo.c"; "lib/bar.c"] "baz.c");
    [reflexivity | reflexivity | repeat constructor | reflexivity].
Defined.

(** X2. Whatever the file holds, no entry of the allow-list the
    constructor makes contains a newline. *)
Theorem allow_list_entries_have_no_newline
        (env : Environment) (P : AFLCoverage) :
  AFLCoverage_new env = Returned P ->
  Forall (fun E => has_newline E = false) (myWhitelist P).
Proof.
  unfold AFLCoverage_new.
  destruct (getenv env "AFL_LLVM_WHITELIST") as [path|].
  - destruct (open_file env path) as [content|]; [|discriminate].
    destruct (getline (mk_ifstream content false false) EmptyString)
      as [f line] eqn:G.
    intros E; injection E as <-.
    change (Forall (fun E => has_newline E = false)
                   (snd (whitelist_loop (2 + size content) f line []))).
    apply whitelist_loop_no_newline; [|constructor].
    unfold getline in G. cbn [is_eofbit is_failbit is_buf orb] in G.
    pose proof (take_line_no_newline content) as T.
    destruct (take_line content) as [l [r|]]; injection G as _ <-; exact T.
  - intros E; injection E as <-. constructor.
Qed.

Lemma allow_list_no_newline_witness :
  Forall (fun E => has_newline E = false)
         (myWhitelist (mk_pass ["foo.c"; EmptyString; "bar.c"])).
Proof.
  apply (allow_list_entries_have_no_newline
           (mk_env (fun _ => Some "list.txt") (fun _ => true)
                   (fun _ => Some (unlines ["foo.c"; EmptyString; "bar.c"])))).
  reflexivity.
Defined.

(* ===================================================================== *)
(** * Further properties: the filter *)
(* ===================================================================== *)

Lemma substring_nothing (n : nat) (s : string) : substring n 0 s = EmptyString.
Proof.
  revert n; induction s as [|c s IH]; intros [|n]; cbn [substring]; trivial.
Qed.

Lemma tail_matches_empty (F : string) : tail_matches F EmptyString.
Proof.
  unfold tail_matches, size. cbn [String.length]. split; [lia|].
  apply substring_nothing.
Qed.

Lemma instrumentBlock_incl (wl wl' : list string) (Loc : DebugLoc) :
  incl wl wl' ->
  instrumentBlock wl Loc = true -> instrumentBlock wl' Loc = true.
Proof.
  intros I. destruct Loc as [l|]; [|discriminate].
  rewrite !instrumentBlock_resolved.
  destruct (negb (empty (fst (resolve_location l)))); [|discriminate].
  cbn [andb]. rewrite !whitelist_scan_spec.
  intros (E & HE & T). exists E. split; [now apply I | exact T].
Qed.

(** X3. An empty entry, which an empty line of the file makes, matches
    every file name: each block whose resolved file name is known then
    passes the filter. *)
Theorem empty_entry_matches_every_file
        (P : AFLCoverage) (BB : BasicBlock) (l : DILocation) :
  In EmptyString (myWhitelist P) ->
  block_location BB = Some l ->
  fst (resolve_location l) <> EmptyString ->
  instrumentBlock (myWhitelist P) (block_location BB) = true.
Proof.
  intros HI HL HN. rewrite HL, instrumentBlock_resolved.
  destruct (empty (fst (resolve_location l))) eqn:E;
    [apply empty_spec in E; contradiction|].
  cbn [negb andb]. apply whitelist_scan_spec.
  exists EmptyString. split; [exact HI | apply tail_matches_empty].
Qed.

Lemma empty_entry_witness :
  AFLCoverage_new
    (mk_env (fun _ => Some "list.txt") (fun _ => true)
            (fun _ => Some (unlines ["nothing.c"; EmptyString])))
  = Returned (mk_pass ["nothing.c"; EmptyString]) /\
  instrumentBlock ["nothing.c"; EmptyString]
                  (block_location (ex_target 2 (Some loc_bar))) = true.
Proof.
  split; [reflexivity|].
  apply (empty_entry_matches_every_file
           (mk_pass ["nothing.c"; EmptyString])
           (ex_target 2 (Some loc_bar)) loc_bar);
    [right; now left | reflexivity | discriminate].
Defined.

(** X4. For a non-empty allow-list, the order of the entries and their
    repetition do not matter, and more entries never lose a block: a block
    that is instrumented stays so, with the same result, when the
    allow-list is replaced by one that has all its entries.  (The empty
    allow-list is the exception, since it lets every block through.) *)
Theorem more_entries_keep_instrumented_blocks
        (wl wl' : list string) (F : Function) (BB BB' : BasicBlock) :
  wl <> [] ->
  incl wl wl' ->
  visit_block (mk_pass wl) F BB = Some BB' ->
  visit_block (mk_pass wl') F BB = Some BB'.
Proof.
  intros HN HI V.
  assert (HN' : wl' <> []).
  { destruct wl as [|E wl]; [contradiction|].
    intros ->. exact (HI E (or_introl eq_refl)). }
  assert (I : instrumentBlock wl (block_location BB) = true).
  { destruct (instrumentBlock wl (block_location BB)) eqn:I; [reflexivity|].
    rewrite (visit_block_filtered (mk_pass wl) F BB HN I) in V.
    discriminate. }
  apply (instrumentBlock_incl wl wl' _ HI) in I.
  revert V. unfold visit_block. fold (block_location BB).
  cbn [myWhitelist]. rewrite I.
  destruct wl as [|E wl]; [contradiction|].
  destruct wl' as [|E' wl']; [contradiction|].
  cbn [List.length Nat.eqb negb andb].
  destruct (instrumentBlock (E :: wl) (block_location BB)); trivial.
  discriminate.
Qed.

Lemma more_entries_witness :
  visit_block (mk_pass ["bar.c"; "foo.c"; "foo.c"])
              (ex_function (Some loc_foo) (Some loc_bar))
              (ex_target 1 (Some loc_foo))
  = Some (instrumented (ex_function (Some loc_foo) (Some loc_bar))
                       (ex_target 1 (Some loc_foo))).
Proof.
  apply (more_entries_keep_instrumented_blocks ["foo.c"]);
    [discriminate | | reflexivity].
  intros E [<- | []]. right. now left.
Defined.

(** X5. The inlined-at location is looked at only when the location
    itself names no file, and only one step up.  A location that names a
    file is matched by that name alone; a location without file name whose
    inlined-at location has none either is dropped, wherever that one was
    inlined. *)
Theorem location_is_resolved_one_step
        (wl : list string) (l : DILocation) :
  (getFilename l <> EmptyString ->
   instrumentBlock wl (Some l) = whitelist_scan (getFilename l) wl) /\
  (forall o,
      getFilename l = EmptyString ->
      getInlinedAt l = Some o ->
      getFilename o = EmptyString ->
      instrumentBlock wl (Some l) = false) /\
  instrumentBlock ["foo.c"] (Some loc_bar_in_foo) = false /\
  instrumentBlock ["foo.c"] (Some loc_two_hops) = false.
Proof.
  split; [|split; [|split; reflexivity]].
  - intros N. rewrite instrumentBlock_resolved.
    destruct l as [line f o]. cbn [getFilename] in *.
    unfold resolve_location. cbn [getFilename getLine getInlinedAt].
    destruct f; [contradiction | reflexivity].
  - intros o E I Eo. rewrite instrumentBlock_resolved.
    destruct l as [line f o']. cbn [getFilename getInlinedAt] in *.
    subst f o'.
    unfold resolve_location. cbn [getFilename getLine getInlinedAt empty fst].
    now rewrite Eo.
Qed.

Lemma location_one_step_witness :
  instrumentBlock ["foo.c"] (Some loc_bar_in_foo)
  = whitelist_scan "/home/user/src/bar.c" ["foo.c"] /\
  instrumentBlock ["foo.c"] (Some loc_two_hops) = false.
Proof.
  destruct (location_is_resolved_one_step ["foo.c"] loc_bar_in_foo)
    as (Hdirect & _).
  destruct (location_is_resolved_one_step ["foo.c"] loc_two_hops)
    as (_ & Hhop & _).
  split.
  - apply Hdirect. discriminate.
  - apply (Hhop loc_inlined); reflexivity.
Defined.

(** X6. In the loop over the allow-list, [compare] is only called on an
    entry that is not longer than the file name, and such a call never
    throws [std::out_of_range]: it returns a number, which is 0 exactly
    when the name ends in the entry. *)
Theorem compare_in_the_filter_never_throws (F E : string) :
  (size E <= size F)%nat ->
  exists r, string_compare F (size F - size E) (size E) E = Some r /\
            (r = 0 <-> exists p, F = (p ++ E)%string).
Proof.
  intros L. destruct (string_compare_tail F E L) as (r & C & Hr).
  exists r. split; [exact C|]. now rewrite Hr, tail_matches_suffix.
Qed.

Lemma compare_never_throws_witness :
  exists r,
    string_compare "/home/user/src/foo.c" 15 5 "foo.c" = Some r /\
    (r = 0 <-> exists p, "/home/user/src/foo.c" = (p ++ "foo.c")%string).
Proof.
  apply (compare_in_the_filter_never_throws "/home/user/src/foo.c" "foo.c").
  unfold size. simpl. lia.
Defined.

(* ===================================================================== *)
(** * Further properties: which blocks are instrumented *)
(* ===================================================================== *)

Lemma visited_tests (P : AFLCoverage) (F : Function) (BB : BasicBlock) :
  visited P F BB =
  ((Nat.eqb (List.length (myWhitelist P)) 0
    || instrumentBlock (myWhitelist P) (block_location BB))
   && (more_than_one F BB =? 1)
   && bb_addressable BB)%bool.
Proof.
  unfold visited, visit_block, BlockAddress_get. fold (block_location BB).
  destruct (Nat.eqb (List.length (myWhitelist P)) 0);
    destruct (instrumentBlock (myWhitelist P) (block_location BB));
    destruct (more_than_one F BB =? 1);
    destruct (bb_addressable BB); reflexivity.
Qed.

(** X7. The blocks that are instrumented are exactly those that pass the
    three tests: the allow-list is empty or the block passes the filter;
    some predecessor has two or more successors; and the block has an
    address.  Such a block gets the recording sequence at its first
    insertion point, the eight instructions written out between the
    instructions it had; every other block is left alone. *)
Theorem instrumented_blocks_are_those_passing_the_tests
        (P : AFLCoverage) (F : Function) (BB : BasicBlock) :
  (visit_block P F BB = Some (instrumented F BB) \/
   visit_block P F BB = None) /\
  (visit_block P F BB = Some (instrumented F BB) <->
   (myWhitelist P = [] \/
    instrumentBlock (myWhitelist P) (block_location BB) = true) /\
   (exists Pred, In Pred (predecessors F BB) /\ 2 <= count_successors Pred)
   /\ bb_addressable BB = true) /\
  bb_body (instrumented F BB) =
  firstn (getFirstInsertionPt BB) (bb_body BB)
  ++ sequence_written_out (inst_dbg (inst_at BB (getFirstInsertionPt BB)))
                          (fn_name F) (bb_label BB)
  ++ skipn (getFirstInsertionPt BB) (bb_body BB).
Proof.
  refine ((fun K => conj (proj1 K) (conj (proj2 K) eq_refl)) _).
  pose proof (visited_tests P F BB) as T. unfold visited in T.
  assert (D : visit_block P F BB = Some (instrumented F BB) \/
              visit_block P F BB = None).
  { destruct (visit_block P F BB) as [b|] eqn:V; [left|now right].
    now rewrite (visit_block_some P F BB b V). }
  split; [exact D|]. split.
  - intros V. rewrite V in T. symmetry in T.
    apply andb_true_iff in T as [T A]. apply andb_true_iff in T as [W S].
    split; [|split; [|exact A]].
    + apply orb_true_iff in W as [W|W]; [left|now right].
      apply Nat.eqb_eq in W. now destruct (myWhitelist P).
    + apply more_than_one_spec. now apply Z.eqb_eq.
  - intros (W & S & A). apply visit_block_selected; trivial.
    now apply more_than_one_spec.
Qed.

(* ===================================================================== *)
(** * Further properties: what the pass leaves of the module *)
(* ===================================================================== *)

Section ModuleInvariants.

Variable P : AFLCoverage.

Lemma recording_code_length (ip : Instruction) (fn : string) (bb : nat) :
  List.length (recording_code ip fn bb) = 8%nat.
Proof. reflexivity. Qed.

Lemma after_visit_cases (F : Function) (BB : BasicBlock) :
  (visited P F BB = false /\ after_visit P F BB = BB) \/
  (visited P F BB = true /\ after_visit P F BB = instrumented F BB).
Proof.
  unfold visited, after_visit.
  destruct (visit_block P F BB) as [b|] eqn:V; [right | left; now split].
  now rewrite (visit_block_some P F BB b V).
Qed.

Lemma after_visit_skeleton (F : Function) (BB : BasicBlock) :
  skeleton (after_visit P F BB) = skeleton BB.
Proof.
  destruct (after_visit_cases F BB) as [[_ ->] | [_ ->]]; reflexivity.
Qed.

Lemma pass_function_shape (F : Function) :
  shape (pass_function P F) = shape F.
Proof.
  unfold shape, pass_function. cbn [fn_name fn_blocks]. f_equal.
  rewrite map_map. apply map_ext. intros BB. apply after_visit_skeleton.
Qed.

Lemma split_length {A} (n : nat) (l new : list A) :
  List.length (firstn n l ++ new ++ skipn n l)
  = (List.length l + List.length new)%nat.
Proof.
  rewrite <- (firstn_skipn n l) at 3. rewrite !length_app. lia.
Qed.

Lemma after_visit_length (F : Function) (BB : BasicBlock) :
  List.length (bb_body (after_visit P F BB)) =
  (List.length (bb_body BB) + if visited P F BB then 8 else 0)%nat.
Proof.
  destruct (after_visit_cases F BB) as [[-> ->] | [-> ->]]; [lia|].
  unfold instrumented, insert_before. cbn [bb_body].
  now rewrite split_length.
Qed.

Lemma blocks_size_after (F : Function) (bs : list BasicBlock) :
  list_sum (map (fun BB => List.length (bb_body BB))
                (map (after_visit P F) bs)) =
  (list_sum (map (fun BB => List.length (bb_body BB)) bs)
   + 8 * List.length (filter (visited P F) bs))%nat.
Proof.
  unfold list_sum.
  induction bs as [|BB bs IH]; cbn [map fold_right filter]; [reflexivity|].
  rewrite IH, after_visit_length.
  destruct (visited P F BB); cbn [List.length]; lia.
Qed.

Lemma body_size_after (F : Function) :
  body_size (pass_function P F) = (body_size F + 8 * count_function P F)%nat.
Proof. exact (blocks_size_after F (fn_blocks F)). Qed.

Lemma body_instructions_after (fns : list Function) :
  body_instructions (map (pass_function P) fns) =
  (body_instructions fns + 8 * count_module P fns)%nat.
Proof.
  unfold body_instructions, list_sum.
  induction fns as [|F fns IH]; cbn [map fold_right]; [reflexivity|].
  change (count_module P (F :: fns))
    with (count_function P F + count_module P fns)%nat.
  rewrite IH, body_size_after. lia.
Qed.

Lemma count_module_bound (fns : list Function) :
  (count_module P fns <= block_count fns)%nat.
Proof.
  unfold block_count, list_sum.
  induction fns as [|F fns IH]; cbn [map fold_right]; [cbn; lia|].
  change (count_module P (F :: fns))
    with (count_function P F + count_module P fns)%nat.
  pose proof (filter_length_le (visited P F) (fn_blocks F)).
  unfold count_function. lia.
Qed.

End ModuleInvariants.

Lemma firstn_insert {A} (n : nat) (l new : list A) :
  (n <= List.length l)%nat ->
  firstn n (firstn n l ++ new ++ skipn n l) = firstn n l.
Proof.
  intros L. rewrite firstn_app, firstn_firstn, Nat.min_id.
  rewrite (firstn_length_le l L), Nat.sub_diag. cbn [firstn].
  apply app_nil_r.
Qed.

Lemma skipn_insert {A} (n : nat) (l new : list A) :
  (n <= List.length l)%nat ->
  skipn n (firstn n l ++ new ++ skipn n l) = new ++ skipn n l.
Proof.
  intros L. rewrite skipn_app, (firstn_length_le l L), Nat.sub_diag.
  cbn [skipn]. rewrite skipn_all2; [reflexivity|].
  rewrite (firstn_length_le l L). lia.
Qed.

Lemma firstn_prefix {A} (a b : list A) :
  firstn (List.length a) (a ++ b) = a.
Proof. induction a as [|x a IH]; cbn; [reflexivity | now rewrite IH]. Qed.

Lemma skipn_prefix {A} (a b : list A) :
  skipn (List.length a) (a ++ b) = b.
Proof. induction a as [|x a IH]; cbn; [reflexivity | exact IH]. Qed.

(** The insertion point is in the block: at the latest it is the
    terminator. *)
Lemma insertion_point_in_block (BB : BasicBlock) :
  (getFirstInsertionPt BB <= List.length (bb_body BB))%nat.
Proof.
  unfold getFirstInsertionPt. generalize (bb_body BB). intros body.
  assert (B : (firstNonPHI body <= List.length body)%nat).
  { induction body as [|x body IHb]; cbn [firstNonPHI List.length]; [lia|].
    destruct (is_phi x); lia. }
  destruct (nth_error body (firstNonPHI body)) as [x|] eqn:N; [|lia].
  assert (firstNonPHI body < List.length body)%nat
    by (apply nth_error_Some; congruence).
  destruct (isEHPad x); lia.
Qed.

(** The instructions the builder leaves are the eight written out. *)
Lemma recording_code_written_out (ip : Instruction) (fn : string) (bb : nat) :
  recording_code ip fn bb = sequence_written_out (inst_dbg ip) fn bb.
Proof. reflexivity. Qed.

Lemma instrumented_body (F : Function) (BB : BasicBlock) :
  bb_body (instrumented F BB) =
  firstn (getFirstInsertionPt BB) (bb_body BB)
  ++ sequence_written_out (inst_dbg (inst_at BB (getFirstInsertionPt BB)))
                          (fn_name F) (bb_label BB)
  ++ skipn (getFirstInsertionPt BB) (bb_body BB).
Proof. reflexivity. Qed.

Lemma instrumented_runs (F : Function) (BB : BasicBlock) (L : Linkage)
      (m : memory) :
  exists st,
    exec L (mk_machine [] m)
         (firstn 8 (skipn (getFirstInsertionPt BB)
                          (bb_body (instrumented F BB)))) = Some st /\
    forall b,
      mem st b =
      record_block (load64 m (global_addr L "__afl_area_ptr"))
                   (block_addr L (fn_name F) (bb_label BB) mod WORD) m b.
Proof.
  unfold instrumented, insert_before. cbn [bb_body].
  rewrite (skipn_insert _ _ _ (insertion_point_in_block BB)).
  rewrite (firstn_prefix
             (build_at (inst_at BB (getFirstInsertionPt BB))
                       (instrumentation
                          (BlockAddress (fn_name F) (bb_label BB)))) _).
  apply exec_instrumentation.
Qed.

(** C4. With no allow-list, an addressable block that has a predecessor
    with two or more successors is always instrumented.  The module the
    pass returns has at its position a block with the same label,
    terminator and successors, whose instructions are those it had with
    the eight new ones put in at the first insertion point; and these
    eight, run on any memory, do [idx = map[0]; map[idx] = identity;
    map[0] = idx + 1] with the block's address as identity. *)
Theorem branch_targets_are_always_instrumented
        (H : Headers) (env : Environment) (P : AFLCoverage) (M M' : Module)
        (out : list Diag) (i j : nat) (F : Function) (BB : BasicBlock) :
  runOnModule H env P M = (out, Returned (true, M')) ->
  nth_error (mod_functions M) i = Some F ->
  nth_error (fn_blocks F) j = Some BB ->
  myWhitelist P = [] ->
  (exists Pred, In Pred (predecessors F BB) /\ 2 <= count_successors Pred) ->
  bb_addressable BB = true ->
  visit_block P F BB = Some (instrumented F BB) /\
  block_at M' i j = Some (instrumented F BB) /\
  exists BB',
    block_at M' i j = Some BB' /\
    skeleton BB' = skeleton BB /\
    bb_body BB' =
    firstn (getFirstInsertionPt BB) (bb_body BB)
    ++ sequence_written_out
         (inst_dbg (inst_at BB (getFirstInsertionPt BB)))
         (fn_name F) (bb_label BB)
    ++ skipn (getFirstInsertionPt BB) (bb_body BB) /\
    List.length (bb_body BB') = (List.length (bb_body BB) + 8)%nat /\
    forall (L : Linkage) (m : memory),
    exists st,
      exec L (mk_machine [] m)
           (firstn 8 (skipn (getFirstInsertionPt BB) (bb_body BB')))
      = Some st /\
      forall b,
        mem st b =
        record_block (load64 m (global_addr L "__afl_area_ptr"))
                     (block_addr L (fn_name F) (bb_label BB) mod WORD) m b.
Proof.
  intros R HF HB HW HP HA.
  assert (V : visit_block P F BB = Some (instrumented F BB)).
  { apply visit_block_selected; [now left | | exact HA].
    now apply more_than_one_spec. }
  assert (B : block_at M' i j = Some (instrumented F BB)).
  { rewrite (runOnModule_block H env P M out true M' i j F BB R HF HB).
    unfold after_visit. now rewrite V. }
  split; [exact V|]. split; [exact B|].
  exists (instrumented F BB). split; [exact B|].
  split; [reflexivity|]. split; [apply instrumented_body|]. split.
  - rewrite instrumented_body, split_length. reflexivity.
  - intros L m. apply instrumented_runs.
Qed.

Lemma branch_targets_witness :
  exists out M' BB',
    runOnModule ex_headers (ex_env None) (mk_pass [])
                (ex_module None (Some loc_bar))
    = (out, Returned (true, M')) /\
    block_at M' 0 1 = Some BB' /\
    bb_body BB' =
    [mk_inst 2 PHI [] None] ++ sequence_written_out None "main" 1
                            ++ [plain None].
Proof.
  destruct (branch_targets_are_always_instrumented
              ex_headers (ex_env None) (mk_pass [])
              (ex_module None (Some loc_bar))
              (mk_module [afl_area_ptr]
                 [pass_function (mk_pass [])
                                (ex_function None (Some loc_bar))])
              [SAYF (banner ex_headers);
               OKF "Instrumented 2 locations (non-hardened mode, ratio 100%)."]
              0 1 (ex_function None (Some loc_bar)) (ex_target 1 None)
              eq_refl eq_refl eq_refl eq_refl)
    as (_ & _ & BB' & HB & _ & Hbody & _).
  - exists ex_entry. split; [simpl; now left | vm_compute; discriminate].
  - reflexivity.
  - eexists. eexists. exists BB'. split; [reflexivity|].
    split; [exact HB | exact Hbody].
Defined.

(** X8. The pass leaves the control flow alone.  In the module it returns,
    the functions have the names they had and, block by block, the same
    labels, terminators, successors and addresses; the globals are those
    of the module followed by one new declaration, external, not constant
    and of pointer type. *)
Theorem pass_preserves_the_control_flow
        (H : Headers) (env : Environment) (P : AFLCoverage) (M M' : Module)
        (out : list Diag) (b : bool) :
  runOnModule H env P M = (out, Returned (b, M')) ->
  map shape (mod_functions M') = map shape (mod_functions M) /\
  exists g, mod_globals M' = mod_globals M ++ [g] /\
            gv_type g = Int8PtrTy /\ gv_constant g = false /\
            gv_external g = true.
Proof.
  intros R. destruct (decide_ratio env) as [r|] eqn:D.
  - rewrite (runOnModule_returns H env P M r D) in R. injection R as _ _ <-.
    cbn [mod_functions mod_globals]. split.
    + rewrite map_map. apply map_ext. intros F. apply pass_function_shape.
    + exists afl_area_ptr. repeat split.
  - rewrite (runOnModule_fatal H env P M D) in R. discriminate.
Qed.

Lemma pass_preserves_control_flow_witness :
  exists M',
    snd (runOnModule ex_headers (ex_env None) (mk_pass [])
                     (ex_module None (Some loc_bar))) = Returned (true, M') /\
    map shape (mod_functions M')
    = map shape (mod_functions (ex_module None (Some loc_bar))) /\
    exists g, mod_globals M' = [] ++ [g] /\
              gv_type g = Int8PtrTy /\ gv_constant g = false /\
              gv_external g = true.
Proof.
  eexists. split; [reflexivity|].
  eapply (pass_preserves_the_control_flow
            ex_headers (ex_env None) (mk_pass [])
            (ex_module None (Some loc_bar))).
  reflexivity.
Defined.

(** X9. The pass removes and reorders nothing.  In the block it leaves at
    a position, the instructions before the insertion point are those
    that were there, and so are the instructions from the insertion point
    on, either directly (the block was skipped) or after exactly eight
    new instructions (the block was instrumented). *)
Theorem pass_keeps_the_instructions_in_order
        (H : Headers) (env : Environment) (P : AFLCoverage) (M M' : Module)
        (out : list Diag) (b : bool) (i j : nat) (F : Function)
        (BB : BasicBlock) :
  runOnModule H env P M = (out, Returned (b, M')) ->
  nth_error (mod_functions M) i = Some F ->
  nth_error (fn_blocks F) j = Some BB ->
  exists BB',
    block_at M' i j = Some BB' /\
    let IP := getFirstInsertionPt BB in
    firstn IP (bb_body BB') = firstn IP (bb_body BB) /\
    ((visited P F BB = false /\
      skipn IP (bb_body BB') = skipn IP (bb_body BB)) \/
     (visited P F BB = true /\
      firstn 8 (skipn IP (bb_body BB'))
      = recording_code (inst_at BB IP) (fn_name F) (bb_label BB) /\
      skipn (IP + 8) (bb_body BB') = skipn IP (bb_body BB))).
Proof.
  intros R HF HB. exists (after_visit P F BB).
  split; [exact (runOnModule_block H env P M out b M' i j F BB R HF HB)|].
  cbv zeta.
  destruct (after_visit_cases P F BB) as [[V ->] | [V ->]].
  - split; [reflexivity|]. left. now split.
  - unfold instrumented, insert_before. cbn [bb_body].
    fold (recording_code (inst_at BB (getFirstInsertionPt BB))
                         (fn_name F) (bb_label BB)).
    pose proof (insertion_point_in_block BB) as L.
    rewrite (firstn_insert _ _ _ L), (skipn_insert _ _ _ L).
    split; [reflexivity|]. right. split; [exact V|]. split.
    + exact (firstn_prefix
               (recording_code (inst_at BB (getFirstInsertionPt BB))
                               (fn_name F) (bb_label BB)) _).
    + rewrite Nat.add_comm, <- skipn_skipn, (skipn_insert _ _ _ L).
      exact (skipn_prefix
               (recording_code (inst_at BB (getFirstInsertionPt BB))
                               (fn_name F) (bb_label BB)) _).
Qed.

Lemma pass_keeps_instructions_witness :
  exists BB',
    block_at (mk_module [afl_area_ptr]
                [pass_function (mk_pass [])
                               (ex_function None (Some loc_bar))]) 0 1
    = Some BB' /\
    firstn 1 (bb_body BB') = [mk_inst 2 PHI [] None] /\
    skipn 9 (bb_body BB') = [plain None].
Proof.
  destruct (pass_keeps_the_instructions_in_order
              ex_headers (ex_env None) (mk_pass [])
              (ex_module None (Some loc_bar))
              (mk_module [afl_area_ptr]
                 [pass_function (mk_pass [])
                                (ex_function None (Some loc_bar))])
              [SAYF (banner ex_headers);
               OKF "Instrumented 2 locations (non-hardened mode, ratio 100%)."]
              true 0 1 (ex_function None (Some loc_bar)) (ex_target 1 None)
              eq_refl eq_refl eq_refl)
    as (BB' & HB & Hfirst & [[V _] | (_ & _ & Hrest)]).
  - discriminate V.
  - exists BB'. split; [exact HB|]. split; [exact Hfirst | exact Hrest].
Defined.

(** X10. The number in the summary is the number of blocks that were
    changed: the module grows by eight instructions for each counted
    block, and the count is at most the number of blocks of the module. *)
Theorem summary_counts_the_instrumented_blocks
        (H : Headers) (env : Environment) (P : AFLCoverage) (M M' : Module)
        (out : list Diag) (b : bool) :
  runOnModule H env P M = (out, Returned (b, M')) ->
  let inst_blocks := snd (visit_functions P (mod_functions M) O) in
  body_instructions (mod_functions M') =
  (body_instructions (mod_functions M) + 8 * inst_blocks)%nat /\
  (inst_blocks <= block_count (mod_functions M))%nat /\
  (be_quiet env = false -> inst_blocks <> O ->
   exists inst_ratio,
     out = [SAYF (banner H);
            OKF (summary inst_blocks (build_mode env) inst_ratio)]).
Proof.
  intros R. cbv zeta. rewrite visit_functions_spec. cbn [snd Nat.add].
  destruct (decide_ratio env) as [r|] eqn:D.
  - rewrite (runOnModule_returns H env P M r D) in R.
    injection R as <- _ <-. cbn [mod_functions].
    split; [apply body_instructions_after|].
    split; [apply count_module_bound|].
    intros Q N. exists r. unfold diagnostics. rewrite Q.
    destruct (count_module P (mod_functions M)); [contradiction|reflexivity].
  - rewrite (runOnModule_fatal H env P M D) in R. discriminate.
Qed.

Lemma summary_counts_witness :
  exists M',
    runOnModule ex_headers (ex_env None) (mk_pass [])
                (ex_module None (Some loc_bar)) =
    ([SAYF (banner ex_headers);
      OKF "Instrumented 2 locations (non-hardened mode, ratio 100%)."],
     Returned (true, M')) /\
    body_instructions (mod_functions M') = (6 + 8 * 2)%nat.
Proof.
  eexists. split; [reflexivity|].
  eapply (summary_counts_the_instrumented_blocks
            ex_headers (ex_env None) (mk_pass [])
            (ex_module None (Some loc_bar))).
  reflexivity.
Defined.

(* ===================================================================== *)
(** * Further properties: running the pass again *)
(* ===================================================================== *)

Section SecondRun.

Variable P : AFLCoverage.

(** With new instructions before it, the insertion point is where it was,
    now at the first of them. *)
Lemma insertion_point_after_insert (body tl : list Instruction)
      (c0 d : Instruction) :
  is_phi c0 = false -> isEHPad c0 = false ->
  let ip := fun l => match nth_error l (firstNonPHI l) with
                     | Some i => if isEHPad i then S (firstNonPHI l)
                                 else firstNonPHI l
                     | None => firstNonPHI l
                     end in
  ip (firstn (ip body) body ++ c0 :: tl) = ip body /\
  nth (ip body) (firstn (ip body) body ++ c0 :: tl) d = c0.
Proof.
  intros Hphi Hpad. cbv zeta.
  induction body as [|x body IH].
  - cbn [firstNonPHI nth_error firstn app]. rewrite Hphi.
    cbn [nth_error]. rewrite Hpad. split; reflexivity.
  - cbn [firstNonPHI]. destruct (is_phi x) eqn:Px.
    + cbn [nth_error].
      set (n := match nth_error body (firstNonPHI body) with
                | Some i => if isEHPad i then S (firstNonPHI body)
                            else firstNonPHI body
                | None => firstNonPHI body
                end) in *.
      assert (E : match nth_error body (firstNonPHI body) with
                  | Some i => if isEHPad i then S (S (firstNonPHI body))
                              else S (firstNonPHI body)
                  | None => S (firstNonPHI body)
                  end = S n).
      { subst n. destruct (nth_error body (firstNonPHI body)) as [y|];
          [destruct (isEHPad y)|]; reflexivity. }
      rewrite E. cbn [firstn app firstNonPHI nth]. rewrite Px.
      cbn [nth_error]. destruct IH as [IH1 IH2].
      split; [|exact IH2].
      destruct (nth_error (firstn n body ++ c0 :: tl)
                          (firstNonPHI (firstn n body ++ c0 :: tl)))
        as [y|]; [destruct (isEHPad y)|]; f_equal; exact IH1.
    + cbn [nth_error]. destruct (isEHPad x) eqn:Ex.
      * cbn [firstn app firstNonPHI nth]. rewrite Px. cbn [nth_error].
        rewrite Ex. split; reflexivity.
      * cbn [firstn app firstNonPHI nth]. rewrite Hphi. cbn [nth_error].
        rewrite Hpad. split; reflexivity.
Qed.

Lemma insertion_point_insert_before (BB : BasicBlock) (c0 : Instruction)
      (tl : list Instruction) :
  is_phi c0 = false -> isEHPad c0 = false ->
  getFirstInsertionPt
    (insert_before BB (getFirstInsertionPt BB) (c0 :: tl))
  = getFirstInsertionPt BB /\
  inst_at (insert_before BB (getFirstInsertionPt BB) (c0 :: tl))
          (getFirstInsertionPt BB) = c0.
Proof.
  intros Hphi Hpad.
  exact (insertion_point_after_insert
           (bb_body BB)
           (tl ++ skipn (getFirstInsertionPt BB) (bb_body BB))
           c0 (bb_term BB) Hphi Hpad).
Qed.

Lemma block_location_instrumented (F : Function) (BB : BasicBlock) :
  block_location (instrumented F BB) = block_location BB.
Proof.
  unfold block_location.
  set (ip0 := inst_at BB (getFirstInsertionPt BB)).
  set (c0 := mk_inst 0 (Load Int8PtrTy AFLMapPtr) ["nosanitize"]
                     (inst_dbg ip0)).
  set (rest := tl (build_at ip0
                     (instrumentation
                        (BlockAddress (fn_name F) (bb_label BB))))).
  assert (EQ : instrumented F BB
               = insert_before BB (getFirstInsertionPt BB) (c0 :: rest))
    by reflexivity.
  destruct (insertion_point_insert_before BB c0 rest eq_refl eq_refl)
    as [E1 E2].
  rewrite EQ, E1, E2. reflexivity.
Qed.

Lemma block_location_after_visit (F : Function) (BB : BasicBlock) :
  block_location (after_visit P F BB) = block_location BB.
Proof.
  destruct (after_visit_cases P F BB) as [[_ ->] | [_ ->]];
    [reflexivity | apply block_location_instrumented].
Qed.

(** A block of the module the pass returned is judged as the block it was
    made from. *)
Lemma visited_again (F : Function) (BB : BasicBlock) :
  visited P (pass_function P F) (after_visit P F BB) = visited P F BB.
Proof.
  rewrite !visited_tests, block_location_after_visit.
  pose proof (after_visit_skeleton P F BB) as K. unfold skeleton in K.
  injection K as KL _ _ KA. rewrite KA.
  replace (more_than_one (pass_function P F) (after_visit P F BB))
    with (more_than_one F BB); [reflexivity|].
  unfold more_than_one, predecessors, pass_function. cbn [fn_blocks].
  symmetry. apply fold_preds_same_cfg; [exact KL|].
  rewrite map_map. apply map_ext. intros x. apply after_visit_succs.
Qed.

Lemma count_module_again (fns : list Function) :
  count_module P (map (pass_function P) fns) = count_module P fns.
Proof.
  induction fns as [|F fns IH]; [reflexivity|].
  cbn [map].
  change (count_module P (pass_function P F :: map (pass_function P) fns))
    with (count_function P (pass_function P F)
          + count_module P (map (pass_function P) fns))%nat.
  change (count_module P (F :: fns))
    with (count_function P F + count_module P fns)%nat.
  rewrite IH. f_equal.
  unfold count_function. unfold pass_function at 2. cbn [fn_blocks].
  induction (fn_blocks F) as [|BB bs IB]; [reflexivity|].
  cbn [map filter]. rewrite visited_again.
  destruct (visited P F BB); cbn [List.length]; now rewrite IB.
Qed.

End SecondRun.

(** X11. The pass does not recognise its own work.  Run on the module it
    returned, it instruments the same number of blocks again and prints
    the same messages, so that the module has grown by sixteen
    instructions for each of these blocks and by two declarations. *)
Theorem second_run_instruments_again
        (H : Headers) (env : Environment) (P : AFLCoverage)
        (M M1 M2 : Module) (out1 out2 : list Diag) (b1 b2 : bool) :
  runOnModule H env P M = (out1, Returned (b1, M1)) ->
  runOnModule H env P M1 = (out2, Returned (b2, M2)) ->
  let inst_blocks := snd (visit_functions P (mod_functions M) O) in
  snd (visit_functions P (mod_functions M1) O) = inst_blocks /\
  out2 = out1 /\
  body_instructions (mod_functions M2) =
  (body_instructions (mod_functions M) + 16 * inst_blocks)%nat /\
  List.length (mod_globals M2) = (List.length (mod_globals M) + 2)%nat.
Proof.
  intros R1 R2. cbv zeta. rewrite !visit_functions_spec. cbn [snd Nat.add].
  destruct (decide_ratio env) as [r|] eqn:D.
  - rewrite (runOnModule_returns H env P M r D) in R1.
    rewrite (runOnModule_returns H env P M1 r D) in R2.
    injection R1 as <- _ <-. injection R2 as <- _ <-.
    cbn [mod_functions mod_globals].
    rewrite count_module_again. split; [reflexivity|].
    split; [reflexivity|]. split.
    + rewrite !body_instructions_after, count_module_again. lia.
    + rewrite !length_app. cbn [List.length]. lia.
  - rewrite (runOnModule_fatal H env P M D) in R1. discriminate.
Qed.

Lemma second_run_witness :
  exists M1 M2,
    snd (runOnModule ex_headers (ex_env None) (mk_pass ["foo.c"])
                     (ex_module (Some loc_foo) (Some loc_bar)))
    = Returned (true, M1) /\
    snd (runOnModule ex_headers (ex_env None) (mk_pass ["foo.c"]) M1)
    = Returned (true, M2) /\
    body_instructions (mod_functions M2) = (6 + 16 * 1)%nat.
Proof.
  eexists. eexists. split; [reflexivity|]. split; [reflexivity|].
  eapply (second_run_instruments_again
            ex_headers (ex_env None) (mk_pass ["foo.c"])
            (ex_module (Some loc_foo) (Some loc_bar)));
    reflexivity.
Defined.

(* ===================================================================== *)
(** * Further properties: the ratio string *)
(* ===================================================================== *)

Section RatioString.

Lemma scan_uint_acc (u : Decimal.uint) (p : positive) :
  scan_digits (NilEmpty.string_of_uint u) (Some (Z.pos p)) =
  Some (Z.pos (Pos.of_uint_acc u p)).
Proof.
  revert p; induction u; intros p;
    cbn [NilEmpty.string_of_uint scan_digits Pos.of_uint_acc];
    [reflexivity | ..];
    match goal with
    | |- context [digit_of ?c] =>
        let d := eval vm_compute in (digit_of c) in
        change (digit_of c) with d
    end; cbv iota beta;
    match goal with
    | |- scan_digits _ (Some ?a) = Some (Z.pos (Pos.of_uint_acc _ ?q)) =>
        replace a with (Z.pos q) by lia
    end; apply IHu.
Qed.

Lemma scan_uint (u : Decimal.uint) :
  u <> Decimal.Nil ->
  scan_digits (NilEmpty.string_of_uint u) None =
  Some (Z.of_N (Pos.of_uint u)).
Proof.
  induction u; intros N; [contradiction | ..];
    cbn [NilEmpty.string_of_uint scan_digits Pos.of_uint];
    match goal with
    | |- context [digit_of ?c] =>
        let d := eval vm_compute in (digit_of c) in
        change (digit_of c) with d
    end; cbv iota beta.
  - (* a leading zero *)
    change (10 * 0 + 0) with 0.
    destruct u; try (specialize (IHu ltac:(discriminate)));
      try reflexivity;
      cbn [NilEmpty.string_of_uint scan_digits Pos.of_uint] in *;
      match goal with
      | |- context [digit_of ?c] =>
          let d := eval vm_compute in (digit_of c) in
          change (digit_of c) with d;
          change (digit_of c) with d in IHu
      end; cbv iota beta in *; exact IHu.
  - apply (scan_uint_acc u 1).
  - apply (scan_uint_acc u 2).
  - apply (scan_uint_acc u 3).
  - apply (scan_uint_acc u 4).
  - apply (scan_uint_acc u 5).
  - apply (scan_uint_acc u 6).
  - apply (scan_uint_acc u 7).
  - apply (scan_uint_acc u 8).
  - apply (scan_uint_acc u 9).
Qed.

Lemma to_uint_not_nil (n : N) : N.to_uint n <> Decimal.Nil.
Proof.
  destruct n as [|p]; [discriminate|].
  apply DecimalPos.Unsigned.to_uint_nonnil.
Qed.

(** A printed number starts with a digit: nothing is skipped before it. *)
Lemma printed_number_head (u : Decimal.uint) :
  u <> Decimal.Nil ->
  exists c rest,
    NilEmpty.string_of_uint u = String c rest /\
    isspace c = false /\ Ascii.eqb c "-"%char = false /\
    Ascii.eqb c "+"%char = false.
Proof.
  destruct u; intros N; [contradiction | ..];
    cbn [NilEmpty.string_of_uint]; eexists; eexists;
    (split; [reflexivity|]); repeat split; reflexivity.
Qed.

Lemma sscanf_u_printed (n x : Z) :
  0 <= n < UINT_MODULUS -> sscanf_u (fmt_u n) x = (1, n).
Proof.
  intros Hn. unfold fmt_u.
  pose proof (to_uint_not_nil (Z.to_N n)) as NN.
  assert (E : NilZero.string_of_uint (N.to_uint (Z.to_N n))
              = NilEmpty.string_of_uint (N.to_uint (Z.to_N n)))
    by (destruct (N.to_uint (Z.to_N n)); [contradiction | reflexivity ..]).
  rewrite E.
  destruct (printed_number_head _ NN) as (c & rest & S & Hs & Hm & Hp).
  pose proof (scan_uint _ NN) as D. rewrite S in D.
  unfold sscanf_u. rewrite S. cbn [skip_spaces]. rewrite Hs, Hm, Hp.
  cbn [orb]. rewrite D.
  change (Pos.of_uint (N.to_uint (Z.to_N n)))
    with (N.of_uint (N.to_uint (Z.to_N n))).
  rewrite DecimalN.Unsigned.of_to, Z2N.id by lia.
  f_equal. unfold strtoul_value, ULONG_MAX.
  unfold UINT_MODULUS in *.
  destruct (Z.gtb_spec n (2 ^ 64 - 1)); [lia|].
  apply Z.mod_small. lia.
Qed.

Lemma skip_spaces_append (str t : string) :
  skip_spaces str <> EmptyString ->
  skip_spaces (str ++ t) = (skip_spaces str ++ t)%string.
Proof.
  induction str as [|c str IH]; cbn [skip_spaces append].
  - contradiction.
  - destruct (isspace c); [exact IH | reflexivity].
Qed.

Lemma scan_digits_append (s t : string) (acc : option Z) :
  starts_with_digit t = false ->
  scan_digits (s ++ t) acc = scan_digits s acc.
Proof.
  intros T. revert acc; induction s as [|c s IH]; intros acc;
    cbn [append scan_digits].
  - destruct t as [|c t]; [reflexivity|]. cbn [scan_digits].
    unfold starts_with_digit in T. now destruct (digit_of c).
  - destruct (digit_of c); [apply IH | reflexivity].
Qed.

End RatioString.

Section RatioCheck.





End RatioCheck.




(** X12. Printing and reading back.  A number below [2^32] printed with
    [%u] is read back by [sscanf] as that number.  So [AFL_INST_RATIO]
    given in plain decimal is accepted exactly for 1 to 100, and the
    summary then shows the string that was given. *)
Theorem decimal_ratio_is_read_back
        (env : Environment) (n : Z) :
  0 <= n < UINT_MODULUS ->
  getenv env "AFL_INST_RATIO" = Some (fmt_u n) ->
  (forall x, sscanf_u (fmt_u n) x = (1, n)) /\
  decide_ratio env = (if ((1 <=? n) && (n <=? 100))%bool then Some n
                      else None).
Proof.
  intros Hn G. split; [intros x; now apply sscanf_u_printed|].
  destruct ((1 <=? n) && (n <=? 100))%bool eqn:B.
  - apply andb_true_iff in B as [B1 B2].
    apply Z.leb_le in B1. apply Z.leb_le in B2.
    apply (decide_ratio_accepted env (fmt_u n) n G).
    split; [now apply sscanf_u_printed | lia].
  - apply (decide_ratio_rejected env (fmt_u n) G).
    intros (r & S & Hr). rewrite (sscanf_u_printed n 100 Hn) in S.
    injection S as <-.
    apply andb_false_iff in B as [B|B]; apply Z.leb_gt in B; lia.
Qed.

Lemma decimal_ratio_witness :
  decide_ratio (ex_env (Some "42")) = Some 42 /\
  decide_ratio (ex_env (Some "4000000000")) = None.
Proof.
  split.
  - apply (decimal_ratio_is_read_back (ex_env (Some "42")) 42);
      [unfold UINT_MODULUS; lia | reflexivity].
  - apply (decimal_ratio_is_read_back
             (ex_env (Some "4000000000")) 4000000000);
      [unfold UINT_MODULUS; lia | reflexivity].
Defined.

(** X13. What follows the number is not read.  If a ratio string is
    accepted, so is the string with anything appended that does not start
    with a digit, and the ratio is the same: "50%" is the ratio 50. *)
Theorem characters_after_the_ratio_are_ignored
        (str t : string) (r x : Z) :
  sscanf_u str x = (1, r) ->
  starts_with_digit t = false ->
  sscanf_u (str ++ t) x = (1, r) /\
  (ratio_accepted str -> ratio_accepted (str ++ t)).
Proof.
  assert (K : forall r0 x0,
             sscanf_u str x0 = (1, r0) ->
             starts_with_digit t = false ->
             sscanf_u (str ++ t) x0 = (1, r0)).
  { intros r0 x0 S T. unfold sscanf_u in *.
    destruct (skip_spaces str) as [|c rest] eqn:K; [discriminate|].
    rewrite skip_spaces_append by (rewrite K; discriminate).
    rewrite K. cbn [append].
    set (signed := (Ascii.eqb c "-"%char || Ascii.eqb c "+"%char)%bool) in *.
    replace (if signed then (rest ++ t)%string else String c (rest ++ t))
      with ((if signed then rest else String c rest) ++ t)%string
      by (now destruct signed).
    now rewrite scan_digits_append. }
  intros S T. split; [now apply K|].
  intros (n & Sn & Hn). exists n. split; [now apply K | exact Hn].
Qed.

Lemma characters_after_ratio_witness :
  sscanf_u "50%" 100 = (1, 50) /\
  decide_ratio (ex_env (Some "50%")) = Some 50.
Proof.
  destruct (characters_after_the_ratio_are_ignored "50" "%" 50 100
              eq_refl eq_refl) as [S _].
  split; [exact S|].
  apply (decide_ratio_accepted (ex_env (Some "50%")) "50%" 50 eq_refl).
  split; [exact S | lia].
Defined.

(* ===================================================================== *)
(** * Further properties: the recording sequence at run time *)
(* ===================================================================== *)

Section RunTime.

Lemma store_le_outside (n : Z) (m : memory) (a v b : Z) :
  n <= (b - a) mod WORD -> store_le n m a v b = m b.
Proof.
  intros D. unfold store_le.
  destruct (Z.ltb_spec ((b - a) mod WORD) n); [lia | reflexivity].
Qed.

(** The eight bytes at [a] are the same after the sequence when they
    overlap neither the counter nor the word the counter names. *)
Lemma record_block_apart (base id a : Z) (m : memory) :
  apart_from_word a base 0 ->
  apart_from_word a base (map_get m base 0) ->
  load64 (record_block base id m) a = load64 m a.
Proof.
  intros A0 Ac. unfold record_block, map_set.
  rewrite load64_store64_other by exact A0.
  now rewrite load64_store64_other by exact Ac.
Qed.

End RunTime.

(** X14. The recording sequence writes to two places only: the eight
    bytes of the counter and the eight bytes at offset [8 * idx]; every
    other byte of the memory, whether inside the map or not, is as it
    was. *)
Theorem recording_writes_two_words_only
        (L : Linkage) (ip : Instruction) (fn : string) (bb : nat)
        (m : memory) (b : Z) :
  let base := load64 m (global_addr L "__afl_area_ptr") in
  let idx := map_get m base 0 in
  8 <= (b - (base + 8 * 0)) mod WORD ->
  8 <= (b - (base + 8 * idx)) mod WORD ->
  exists st,
    exec L (mk_machine [] m) (recording_code ip fn bb) = Some st /\
    mem st b = m b.
Proof.
  intros base idx H0 Hc.
  destruct (exec_instrumentation L ip fn bb m) as (st & E & Hmem).
  exists st. split; [exact E|]. rewrite Hmem.
  unfold record_block, map_set, store64.
  rewrite store_le_outside by exact H0.
  now rewrite store_le_outside by exact Hc.
Qed.

Lemma recording_two_words_witness :
  exists st,
    exec ex_linkage (mk_machine [] ex_memory_started)
         (recording_code (plain None) "main" 1) = Some st /\
    mem st 4097 = 32 /\ mem st 8208 = 0.
Proof.
  destruct (recording_writes_two_words_only
              ex_linkage (plain None) "main" 1 ex_memory_started 4097)
    as (st & E & H1); [vm_compute; discriminate ..|].
  destruct (recording_writes_two_words_only
              ex_linkage (plain None) "main" 1 ex_memory_started 8208)
    as (st' & E' & H2); [vm_compute; discriminate ..|].
  exists st. split; [exact E|]. split; [exact H1|].
  rewrite E in E'. injection E' as <-. exact H2.
Defined.

(** X16. The arithmetic wraps.  When the offset [8 * idx] is a multiple
    of [2^64], that is when the counter is a multiple of [2^61], the
    identity goes to word 0 and is overwritten by the new counter, as for
    counter 0; and from counter [2^64 - 1] the counter goes back to 0. *)
Theorem recording_wraps_around
        (L : Linkage) (ip : Instruction) (fn : string) (bb : nat)
        (m : memory) :
  let base := load64 m (global_addr L "__afl_area_ptr") in
  let idx := map_get m base 0 in
  exists st,
    exec L (mk_machine [] m) (recording_code ip fn bb) = Some st /\
    ((8 * idx) mod WORD = 0 ->
     forall b, mem st b = map_set m base 0 ((idx + 1) mod WORD) b) /\
    (idx = WORD - 1 -> map_get (mem st) base 0 = 0).
Proof.
  intros base idx.
  destruct (exec_instrumentation L ip fn bb m) as (st & E & Hmem).
  fold base in Hmem. exists st. split; [exact E|]. split.
  - intros W b. rewrite Hmem. unfold record_block, map_set, store64.
    fold idx.
    rewrite (store_le_ext 8 _ (store_le 8 m (base + 8 * 0)
                                        (block_addr L fn bb mod WORD))).
    + apply store_le_twice.
    + intros x. apply store_le_addr.
      rewrite Z.add_mod, W by discriminate.
      rewrite (Z.add_mod base (8 * 0)) by discriminate. reflexivity.
  - intros C. rewrite (map_get_ext _ _ base 0 Hmem), record_block_counter.
    fold idx. rewrite C. replace (WORD - 1 + 1) with (1 * WORD) by lia.
    apply Z.mod_mul. discriminate.
Qed.

Lemma recording_wraps_witness :
  map_get ex_memory_wrapped 8192 0 = 2 ^ 61 /\
  exists st,
    exec ex_linkage (mk_machine [] ex_memory_wrapped)
         (recording_code (plain None) "main" 1) = Some st /\
    forall b, mem st b = map_set ex_memory_wrapped 8192 0 (2 ^ 61 + 1) b.
Proof.
  split; [reflexivity|].
  destruct (recording_wraps_around
              ex_linkage (plain None) "main" 1 ex_memory_wrapped)
    as (st & E & Hwrap & _).
  exists st. split; [exact E|]. exact (Hwrap eq_refl).
Defined.

Section Traces.

Variable L : Linkage.

(** The identities are 64-bit numbers. *)
Lemma identities_reduced (blocks : list (Instruction * string * nat))
      (k : nat) :
  nth k (identities L blocks) 0 mod WORD = nth k (identities L blocks) 0.
Proof.
  revert k; induction blocks as [|[[ip fn] bb] blocks IH]; intros [|k];
    cbn [identities map nth]; try reflexivity.
  - apply Z.mod_mod. discriminate.
  - apply IH.
Qed.

Lemma exec_blocks_trace (blocks : list (Instruction * string * nat)) :
  forall (m m0 : memory) (c : Z),
    let g := global_addr L "__afl_area_ptr" in
    let base := load64 m0 g in
    (forall b, m b = m0 b) ->
    map_get m0 base 0 = c -> 0 <= c ->
    c + Z.of_nat (List.length blocks) < 2 ^ 61 ->
    (forall k, k = 0 \/ c <= k < c + Z.of_nat (List.length blocks) ->
               apart_from_word g base k) ->
    exists m',
      exec_blocks L blocks m = Some m' /\
      (forall b, m' b = record_trace base (identities L blocks) m0 b) /\
      load64 m' g = base.
Proof.
  induction blocks as [|[[ip fn] bb] blocks IH];
    intros m m0 c g base Hm C Hc Hn Hg.
  - exists m. split; [reflexivity|]. split; [exact Hm|].
    unfold load64. now rewrite (load_le_ext 8 m m0 g Hm).
  - cbn [exec_blocks identities map record_trace fold_left].
    fold (identities L blocks).
    fold (record_trace base (identities L blocks)
            (record_block base (block_addr L fn bb mod WORD) m0)).
    destruct (exec_instrumentation L ip fn bb m) as (st & E & Hst).
    fold (recording_code ip fn bb) in E. rewrite E.
    assert (Hbase : load64 m g = base)
      by (unfold load64; now rewrite (load_le_ext 8 m m0 g Hm)).
    fold g in Hst. rewrite Hbase in Hst.
    set (m1 := record_block base (block_addr L fn bb mod WORD) m0).
    assert (Hm1 : forall b, mem st b = m1 b).
    { intros b. rewrite Hst. now apply record_block_ext. }
    cbn [List.length] in Hn, Hg. rewrite Nat2Z.inj_succ in Hn, Hg.
    assert (G1 : load64 m1 g = base).
    { unfold m1. rewrite record_block_apart; [reflexivity | |].
      - apply Hg. now left.
      - rewrite C. apply Hg. right. lia. }
    assert (C1 : map_get m1 base 0 = c + 1).
    { unfold m1. rewrite record_block_counter, C. apply Z.mod_small.
      rewrite WORD_value. change (2 ^ 61) with 2305843009213693952 in Hn.
      lia. }
    specialize (IH (mem st) m1 (c + 1)). cbv zeta in IH.
    fold g in IH. rewrite G1 in IH.
    destruct IH as (m' & E' & T' & G').
    + exact Hm1.
    + exact C1.
    + lia.
    + lia.
    + intros k Hk. apply Hg. destruct Hk; [now left | right; lia].
    + exists m'. split; [exact E'|]. split; [exact T' | exact G'].
Qed.

End Traces.

(** X17. A run through instrumented blocks.  Let the counter of the map
    be [c], at least 1, let fewer than [2^61 - c] blocks be run through,
    and let the pointer variable lie apart from the words of the map that
    are written.  Then every recording sequence runs, the pointer variable
    still holds the address of the map, the counter ends at [c] plus the
    number of blocks, and the identity of the [k]-th block is in word
    [c + k]: nothing is lost. *)
Theorem trace_is_recorded_in_order
        (L : Linkage) (blocks : list (Instruction * string * nat))
        (m : memory) (c : Z) :
  let g := global_addr L "__afl_area_ptr" in
  let base := load64 m g in
  map_get m base 0 = c -> 1 <= c ->
  c + Z.of_nat (List.length blocks) < 2 ^ 61 ->
  (forall k, k = 0 \/ c <= k < c + Z.of_nat (List.length blocks) ->
             apart_from_word g base k) ->
  exists m',
    exec_blocks L blocks m = Some m' /\
    load64 m' g = base /\
    map_get m' base 0 = c + Z.of_nat (List.length blocks) /\
    forall k, (k < List.length blocks)%nat ->
              map_get m' base (c + Z.of_nat k)
              = nth k (identities L blocks) 0.
Proof.
  intros g base C Hc Hn Hg.
  destruct (exec_blocks_trace L blocks m m c (fun b => eq_refl) C
                              ltac:(lia) Hn Hg)
    as (m' & E & T & G).
  fold g base in T, G.
  assert (Hlen : List.length (identities L blocks) = List.length blocks)
    by (unfold identities; apply length_map).
  destruct (record_trace_spec base (identities L blocks) m c C ltac:(lia))
    as (T1 & _ & T3); [rewrite Hlen; exact Hn|].
  exists m'. split; [exact E|]. split; [exact G|]. split.
  - rewrite (map_get_ext _ _ base 0 T), T1, Hlen. reflexivity.
  - intros k Hk. rewrite (map_get_ext _ _ base _ T).
    rewrite T3 by (rewrite ?Hlen; lia).
    apply identities_reduced.
Qed.

Lemma trace_recorded_witness :
  exists m',
    exec_blocks ex_linkage
                [(plain None, "main", 1%nat); (plain None, "main", 2%nat)]
                ex_memory_started = Some m' /\
    load64 m' 4096 = 8192 /\
    map_get m' 8192 0 = 3 /\
    map_get m' 8192 1 = 4198401 /\
    map_get m' 8192 2 = 4198402.
Proof.
  destruct (trace_is_recorded_in_order
              ex_linkage
              [(plain None, "main", 1%nat); (plain None, "main", 2%nat)]
              ex_memory_started 1)
    as (m' & E & G & C & T).
  - reflexivity.
  - lia.
  - simpl. lia.
  - intros k Hk i Hi.
    change (load64 ex_memory_started
                   (global_addr ex_linkage "__afl_area_ptr")) with 8192.
    change (global_addr ex_linkage "__afl_area_ptr") with 4096.
    cbn [List.length] in Hk. rewrite WORD_value.
    rewrite (Z.mod_small (4096 + i)) by lia.
    replace (4096 + i - (8192 + 8 * k))
      with ((4096 + i - (8192 + 8 * k) + 18446744073709551616)
            + (-1) * 18446744073709551616) by lia.
    rewrite Z.mod_add by discriminate.
    rewrite Z.mod_small; lia.
  - exists m'. split; [exact E|]. split; [exact G|]. split; [exact C|].
    split; [exact (T 0%nat ltac:(simpl; lia)) | exact (T 1%nat ltac:(simpl; lia))].
Defined.

(* ===================================================================== *)
(** * Further properties: the run and its messages *)
(* ===================================================================== *)

(** X18. What is printed.  The run is quiet when the diagnostic stream
    is not a terminal or [AFL_QUIET] is set.  A quiet run that returns
    prints nothing, neither the summary nor the warning that nothing was
    instrumented; a quiet run that ends in [FATAL] prints only the message
    of the abort.  A run that is not quiet prints the banner first and
    then one more text: the summary or the warning when it returns, the
    message of the abort when it ends in [FATAL]. *)
Theorem quiet_runs_print_only_the_abort
        (H : Headers) (env : Environment) (P : AFLCoverage) (M : Module) :
  (be_quiet env = true <->
   (isatty env 2 = false \/ exists v, getenv env "AFL_QUIET" = Some v)) /\
  (be_quiet env = true ->
   (forall b M', snd (runOnModule H env P M) = Returned (b, M') ->
                 everything_printed (runOnModule H env P M) = []) /\
   (forall msg, snd (runOnModule H env P M) = FATAL msg ->
                everything_printed (runOnModule H env P M) = [bad_ratio])) /\
  (be_quiet env = false ->
   (forall b M', snd (runOnModule H env P M) = Returned (b, M') ->
                 exists text,
                   everything_printed (runOnModule H env P M)
                   = [banner H; text]) /\
   (forall msg, snd (runOnModule H env P M) = FATAL msg ->
                everything_printed (runOnModule H env P M)
                = [banner H; bad_ratio])).
Proof.
  split; [|split].
  - unfold be_quiet, is_set.
    destruct (isatty env 2); destruct (getenv env "AFL_QUIET") as [v|];
      cbn [andb negb]; split; intros Q; try discriminate; try reflexivity.
    + right. now exists v.
    + destruct Q as [Q | (v & Q)]; discriminate.
    + now left.
    + now left.
  - intros Q. destruct (decide_ratio env) as [r|] eqn:D.
    + rewrite (runOnModule_returns H env P M r D). unfold diagnostics.
      rewrite Q. split; [reflexivity | discriminate].
    + rewrite (runOnModule_fatal H env P M D). rewrite Q.
      split; [discriminate | reflexivity].
  - intros Q. destruct (decide_ratio env) as [r|] eqn:D.
    + rewrite (runOnModule_returns H env P M r D). unfold diagnostics.
      rewrite Q. split; [|discriminate].
      intros _ _ _. eexists. reflexivity.
    + rewrite (runOnModule_fatal H env P M D). rewrite Q.
      split; [discriminate | reflexivity].
Qed.

Lemma quiet_runs_witness :
  everything_printed
    (runOnModule ex_headers
                 (mk_env (fun _ => None) (fun _ => false) (fun _ => None))
                 (mk_pass ["foo.c"]) (mk_module [] [])) = [] /\
  everything_printed
    (runOnModule ex_headers
                 (mk_env (fun name => if String.eqb name "AFL_QUIET"
                                      then Some "1"
                                      else if String.eqb name "AFL_INST_RATIO"
                                           then Some "0" else None)
                         (fun _ => true) (fun _ => None))
                 (mk_pass []) (ex_module None None)) = [bad_ratio] /\
  everything_printed
    (runOnModule ex_headers (ex_env (Some "abc")) (mk_pass [])
                 (ex_module None None)) = [banner ex_headers; bad_ratio].
Proof.
  destruct (quiet_runs_print_only_the_abort
              ex_headers
              (mk_env (fun _ => None) (fun _ => false) (fun _ => None))
              (mk_pass ["foo.c"]) (mk_module [] [])) as (_ & Hq & _).
  destruct (quiet_runs_print_only_the_abort
              ex_headers
              (mk_env (fun name => if String.eqb name "AFL_QUIET"
                                   then Some "1"
                                   else if String.eqb name "AFL_INST_RATIO"
                                        then Some "0" else None)
                      (fun _ => true) (fun _ => None))
              (mk_pass []) (ex_module None None)) as (_ & Hqf & _).
  destruct (quiet_runs_print_only_the_abort
              ex_headers (ex_env (Some "abc")) (mk_pass [])
              (ex_module None None)) as (_ & _ & Hl).
  split; [|split].
  - destruct (Hq eq_refl) as [Hr _]. exact (Hr true _ eq_refl).
  - destruct (Hqf eq_refl) as [_ Hf]. exact (Hf _ eq_refl).
  - destruct (Hl eq_refl) as [_ Hf]. exact (Hf _ eq_refl).
Defined.

Lemma count_module_none (P : AFLCoverage) (fns : list Function) :
  (forall F BB, In F fns -> In BB (fn_blocks F) -> visited P F BB = false) ->
  count_module P fns = O.
Proof.
  induction fns as [|F fns IH]; intros A; [reflexivity|].
  change (count_module P (F :: fns))
    with (count_function P F + count_module P fns)%nat.
  rewrite IH by (intros F' BB HF; apply A; now right).
  assert (C : forall bs, (forall BB, In BB bs -> visited P F BB = false) ->
                         List.length (filter (visited P F) bs) = O).
  { induction bs as [|BB bs IB]; intros Hb; [reflexivity|].
    cbn [filter]. rewrite (Hb BB (or_introl eq_refl)).
    apply IB. intros BB' HB'. apply Hb. now right. }
  unfold count_function. rewrite C; [reflexivity|].
  intros BB HB. apply A; [now left | exact HB].
Qed.

(** X19. An allow-list needs debug information.  With a non-empty
    allow-list, a module in which no insertion point has a debug location
    gets no instrumentation at all: the functions are returned as they
    were, and all that shows is the warning, if the run is not quiet. *)
Theorem allow_list_without_debug_info_instruments_nothing
        (H : Headers) (env : Environment) (P : AFLCoverage) (M : Module)
        (inst_ratio : Z) :
  decide_ratio env = Some inst_ratio ->
  myWhitelist P <> [] ->
  (forall F BB, In F (mod_functions M) -> In BB (fn_blocks F) ->
                block_location BB = None) ->
  exists M',
    runOnModule H env P M =
    (if be_quiet env then [] else [SAYF (banner H); no_targets],
     Returned (true, M')) /\
    mod_functions M' = mod_functions M.
Proof.
  intros D W A.
  assert (C : count_module P (mod_functions M) = O).
  { apply count_module_none. intros F BB HF HB. unfold visited.
    rewrite (visit_block_filtered P F BB W); [reflexivity|].
    now rewrite (A F BB HF HB). }
  rewrite (runOnModule_returns H env P M inst_ratio D).
  rewrite (count_module_zero P _ C). unfold diagnostics. rewrite C.
  eexists. split; reflexivity.
Qed.

Lemma allow_list_without_debug_info_witness :
  exists M',
    runOnModule ex_headers (ex_env None) (mk_pass ["main.c"])
                (mk_module [] [ex_function_nodebug]) =
    ([SAYF (banner ex_headers); no_targets], Returned (true, M')) /\
    mod_functions M' = [ex_function_nodebug].
Proof.
  apply (allow_list_without_debug_info_instruments_nothing
           ex_headers (ex_env None) (mk_pass ["main.c"])
           (mk_module [] [ex_function_nodebug]) 100);
    [reflexivity | discriminate |].
  intros F BB [<- | []] HB. cbn [ex_function_nodebug fn_blocks] in HB.
  destruct HB as [<- | [<- | [<- | [<- | []]]]]; reflexivity.
Defined.

(** X20. Successors are counted by operand.  A predecessor whose
    terminator names the block twice, as a conditional branch with both
    targets equal does, has two successors for the test: without
    allow-list, the block is instrumented if it has an address, that is,
    it gets the eight instructions written out between those it had.  A
    null operand is not counted: a block whose one predecessor has it and
    a null operand as successors is skipped. *)
Theorem successor_operands_are_counted
        (P : AFLCoverage) (F : Function) (BB Pred : BasicBlock) :
  (myWhitelist P = [] ->
   In Pred (fn_blocks F) ->
   bb_succs Pred = [Some (bb_label BB); Some (bb_label BB)] ->
   bb_addressable BB = true ->
   visit_block P F BB = Some (instrumented F BB)) /\
  (predecessors F BB = [Pred] ->
   bb_succs Pred = [Some (bb_label BB); None] ->
   visit_block P F BB = None) /\
  bb_body (instrumented F BB) =
  firstn (getFirstInsertionPt BB) (bb_body BB)
  ++ sequence_written_out (inst_dbg (inst_at BB (getFirstInsertionPt BB)))
                          (fn_name F) (bb_label BB)
  ++ skipn (getFirstInsertionPt BB) (bb_body BB).
Proof.
  refine ((fun K => conj (proj1 K) (conj (proj2 K) eq_refl)) _).
  split.
  - intros W HI S A. apply visit_block_selected; [now left | | exact A].
    apply more_than_one_spec. exists Pred. split.
    + apply in_predecessors. split; [exact HI|].
      unfold successors. rewrite S. now left.
    + unfold count_successors, successors. rewrite S. cbn. lia.
  - intros HP S. apply visit_block_not_selected.
    rewrite more_than_one_spec. intros (Q & HQ & C).
    rewrite HP in HQ. destruct HQ as [<- | []].
    unfold count_successors, successors in C. rewrite S in C. cbn in C. lia.
Qed.

Lemma successor_operands_witness :
  visit_block (mk_pass []) ex_function_same_target
              (mk_bb 1 [plain None] terminator [] true)
  = Some (instrumented ex_function_same_target
                       (mk_bb 1 [plain None] terminator [] true)).
Proof.
  destruct (successor_operands_are_counted
              (mk_pass []) ex_function_same_target
              (mk_bb 1 [plain None] terminator [] true)
              (mk_bb 0 [plain None] terminator [Some 1%nat; Some 1%nat] true))
    as [Hdup _].
  apply Hdup; [reflexivity | now left | reflexivity | reflexivity].
Defined.
